(** * pyrobosim: the PDDLStream bridge

    A shallow embedding of [pyrobosim/planning/pddlstream/utils.py]:

    - [world_to_pddlstream_init] turns a world model into the list of
      ground facts handed to the planner;
    - [pddlstream_solution_to_plan] turns the planner's solution into a
      [TaskPlan].

    Python lists are Rocq lists, Python sets of category labels are
    [gset string] (iterated through [elements], whose order is as
    unspecified as Python's), exceptions are the [Raise] results of a
    small error monad. *)

From stdpp Require Import gmap strings list.
From Stdlib Require Import QArith.

Local Close Scope Q_scope.
Local Open Scope string_scope.
Local Open Scope list_scope.
Local Open Scope nat_scope.

(** ** Python values *)

(** The values that flow through the two functions.  Instances of the
    world-model classes (Robot, Room, Location, ObjectSpawn, Object) and
    of [Pose] (world/utils.py) define no [__eq__]: [==] on them is object
    identity, so such a value is its identity [id].  [Path] instances are
    kept apart because the decoder asks [isinstance(arg, Path)]. *)
Inductive pyval : Type :=
  | PNone
  | PStr (s : string)
  | PRef (id : nat)
  | PPath (id : nat).

Global Instance pyval_eq_dec : EqDecision pyval.
Proof. solve_decision. Defined.

(** Truth value of [v] in a condition ([if not v]). *)
Definition truthy (v : pyval) : bool :=
  match v with
  | PNone => false
  | PStr s => negb (String.eqb s "")
  | PRef _ | PPath _ => true
  end.

(** [isinstance(v, Path)] *)
Definition isinstance_Path (v : pyval) : bool :=
  match v with
  | PPath _ => true
  | _ => false
  end.

(** ** Exceptions *)

Inductive exn : Type :=
  | ValueError
  | IndexError.

Inductive result (A : Type) : Type :=
  | Ok (a : A)
  | Raise (e : exn).
Arguments Ok {A} a.
Arguments Raise {A} e.

Global Instance result_ret : MRet result := λ A a, Ok a.
Global Instance result_bind : MBind result := λ A B f m,
  match m with
  | Ok a => f a
  | Raise e => Raise e
  end.

(** A [for] loop whose body may raise: the state is threaded from left to
    right and the first exception ends the loop. *)
Fixpoint for_each {A S : Type} (body : S → A → result S) (xs : list A) (s : S)
  : result S :=
  match xs with
  | [] => Ok s
  | x :: xs' => s' ← body s x; for_each body xs' s'
  end.

(** ** Facts *)

(** A fact is the tuple [(name, arg1, ..., argn)]; tuples compare
    componentwise. *)
Definition fact : Type := string * list pyval.

Definition arity (f : fact) : nat := length f.2.

(** [l.remove(x)]: drops the first element equal to [x], [ValueError]
    when there is none. *)
Fixpoint list_remove (x : fact) (l : list fact) : result (list fact) :=
  match l with
  | [] => Raise ValueError
  | y :: l' =>
      if decide (y = x) then Ok l'
      else l'' ← list_remove x l'; Ok (y :: l'')
  end.

(** ** The world model, as far as the encoder reads it *)

Record Robot : Type := {
  robot_id : nat;
  location : pyval;
  pose : pyval;
  manipulated_object : pyval
}.

(** [rooms], [locations] and [objects] list entities by identity;
    [category], [parent] and [children] are their attributes. *)
Record World : Type := {
  robot : Robot;
  rooms : list nat;
  locations : list nat;
  objects : list nat;
  category : nat → string;
  parent : nat → pyval;
  children : nat → list nat;
  get_location_from_pose : pyval → pyval
}.

(** ** world_to_pddlstream_init *)

Section Encoder.
Variable world : World.

Definition robot_ref : pyval := PRef (robot_id (robot world)).

Definition init_loc : pyval :=
  if truthy (location (robot world)) then location (robot world)
  else get_location_from_pose world (pose (robot world)).

Definition robot_facts : list fact :=
  [ ("Robot", [robot_ref]);
    ("HandEmpty", [robot_ref]);
    ("At", [robot_ref; init_loc]);
    ("Pose", [pose (robot world)]);
    ("AtPose", [robot_ref; pose (robot world)]) ].

Definition room_step (init : list fact) (room : nat) : list fact :=
  init ++ [("Room", [PRef room])] ++ [("Location", [PRef room])].

Definition spawn_step (loc : nat) (init : list fact) (spawn : nat)
  : list fact :=
  init ++ [("Location", [PRef spawn])]
       ++ [("Is", [PRef spawn; PStr (category world loc)])]
       ++ [("AtRoom", [PRef spawn; parent world loc])].

Definition loc_step (st : list fact * gset string) (loc : nat)
  : list fact * gset string :=
  (fold_left (spawn_step loc) (children world loc) st.1,
   st.2 ∪ {[category world loc]}).

Definition type_step (init : list fact) (cat : string) : list fact :=
  init ++ [("Type", [PStr cat])].

Definition obj_step (st : list fact * gset string) (obj : nat)
  : result (list fact * gset string) :=
  let init := st.1 ++ [("Obj", [PRef obj])]
                   ++ [("Is", [PRef obj; PStr (category world obj)])] in
  init' ← (if decide (manipulated_object (robot world) = PRef obj)
           then init1 ← list_remove ("HandEmpty", [robot_ref]) init;
                Ok (init1 ++ [("Holding", [robot_ref; PRef obj])])
           else Ok (init ++ [("At", [PRef obj; parent world obj])]));
  Ok (init', st.2 ∪ {[category world obj]}).

Definition world_to_pddlstream_init : result (list fact) :=
  let init := robot_facts in
  let init := fold_left room_step (rooms world) init in
  let '(init, loc_categories) :=
    fold_left loc_step (locations world) (init, ∅) in
  let init := fold_left type_step (elements loc_categories) init in
  '(init, obj_categories) ← for_each obj_step (objects world) (init, ∅);
  let init := fold_left type_step (elements obj_categories) init in
  Ok init.
End Encoder.

(** ** Planner actions and task plans *)

(** An action of the planner's solution: [act_pddl.name] and the
    positional arguments [act_pddl.args]. *)
Record PDDLAction : Type := {
  name : string;
  args : list pyval
}.

(** [t[i]] on a tuple: [IndexError] out of range. *)
Definition index (t : list pyval) (i : nat) : result pyval :=
  match t !! i with
  | Some v => Ok v
  | None => Raise IndexError
  end.

Module Actions.
(** Modelled from the spec: the classes [TaskAction] and [TaskPlan] of
    [pyrobosim/planning/actions.py], which the decoder imports and which
    are not part of the sources at hand.  A task action is its type tag
    with the type-specific fields (object, source and target location,
    pose, path); a field that is unset holds [PNone].  A task plan is an
    ordered sequence of task actions plus a total cost. *)
Record TaskAction : Type := {
  type : string;
  object : pyval;
  source_location : pyval;
  target_location : pyval;
  pose : pyval;
  path : pyval
}.

Record TaskPlan : Type := {
  actions : list TaskAction;
  total_cost : Q
}.

(** Modelled from the spec: the constructor call [TaskAction(name)],
    which builds the typed action with only its name populated; the
    type-specific fields remain unset. *)
Definition new (name : string) : TaskAction :=
  {| type := name; object := PNone; source_location := PNone;
     target_location := PNone; pose := PNone; path := PNone |}.

(** Attribute assignments [act.f = v]. *)
Definition set_object (v : pyval) (a : TaskAction) : TaskAction :=
  {| type := type a; object := v; source_location := source_location a;
     target_location := target_location a; pose := pose a;
     path := path a |}.
Definition set_source_location (v : pyval) (a : TaskAction) : TaskAction :=
  {| type := type a; object := object a; source_location := v;
     target_location := target_location a; pose := pose a;
     path := path a |}.
Definition set_target_location (v : pyval) (a : TaskAction) : TaskAction :=
  {| type := type a; object := object a;
     source_location := source_location a; target_location := v;
     pose := pose a; path := path a |}.
Definition set_pose (v : pyval) (a : TaskAction) : TaskAction :=
  {| type := type a; object := object a;
     source_location := source_location a;
     target_location := target_location a; pose := v; path := path a |}.
Definition set_path (v : pyval) (a : TaskAction) : TaskAction :=
  {| type := type a; object := object a;
     source_location := source_location a;
     target_location := target_location a; pose := pose a; path := v |}.
End Actions.

Import Actions (TaskAction, TaskPlan).

(** ** pddlstream_solution_to_plan *)

(** The body of [for arg in act_pddl.args[3:]]. *)
Definition path_step (act : TaskAction) (arg : pyval) : TaskAction :=
  if isinstance_Path arg then Actions.set_path arg act else act.

(** The body of [for act_pddl in plan], up to the append. *)
Definition decode_action (act_pddl : PDDLAction) : result TaskAction :=
  let act := Actions.new (name act_pddl) in
  if decide (Actions.type act = "navigate") then
    src ← index (args act_pddl) 1;
    let act := Actions.set_source_location src act in
    tgt ← index (args act_pddl) 2;
    let act := Actions.set_target_location tgt act in
    Ok (fold_left path_step (drop 3 (args act_pddl)) act)
  else if decide (Actions.type act = "pick" ∨ Actions.type act = "place")
  then
    obj ← index (args act_pddl) 1;
    let act := Actions.set_object obj act in
    tgt ← index (args act_pddl) 2;
    let act := Actions.set_target_location tgt act in
    if decide (3 < length (args act_pddl)) then
      p ← index (args act_pddl) 3;
      Ok (Actions.set_pose p act)
    else Ok act
  else Ok act.

Definition plan_step (acts : list TaskAction) (act_pddl : PDDLAction)
  : result (list TaskAction) :=
  act ← decode_action act_pddl;
  Ok (acts ++ [act]).

(** A solution is the triple [(plan, total_cost, _)]; [plan] is [None] or a
    list of actions.  The result is [None] (no plan) or a task plan. *)
Definition pddlstream_solution_to_plan {M : Type}
    (solution : option (list PDDLAction) * Q * M) : result (option TaskPlan) :=
  let '(plan, total_cost, _) := solution in
  match plan with
  | None => Ok None
  | Some plan =>
      if decide (length plan = 0) then Ok None
      else
        acts ← for_each plan_step plan [];
        Ok (Some {| Actions.actions := acts;
                    Actions.total_cost := total_cost |})
  end.

(** ** Concrete worlds *)

(** The scenario of the specification: room 1, a table location 2 in it
    with one spawn 3, an object 4 at the spawn, the robot 0 with pose 9.
    The robot's recorded location, its manipulated-object reference and
    the object's category vary. *)
Definition example_world (loc held : pyval) (obj_cat : string) : World :=
  {| robot := {| robot_id := 0; location := loc; pose := PRef 9;
                 manipulated_object := held |};
     rooms := [1]; locations := [2]; objects := [4];
     category := λ i, if decide (i = 4) then obj_cat else "table";
     parent := λ i, if decide (i = 4) then PRef 3
                    else if decide (i = 3) then PRef 2 else PRef 1;
     children := λ i, if decide (i = 2) then [3] else [];
     get_location_from_pose := λ _, PNone |}.

(** The robot at the spawn, an apple on the table. *)
Definition kitchen_world (held : pyval) : World :=
  example_world (PRef 3) held "apple".

(** The robot holds a reference to an object 7 the world does not list. *)
Definition dangling_world : World := kitchen_world (PRef 7).

(** No recorded location, and no location found from the pose. *)
Definition lost_world : World := example_world PNone PNone "apple".

(** The object on the table is itself of category table. *)
Definition table_world : World := example_world (PRef 3) PNone "table".

(** The output for the kitchen world with an empty hand, and for
    [dangling_world]. *)
Definition kitchen_facts : list fact :=
  [ ("Robot", [PRef 0]); ("HandEmpty", [PRef 0]);
    ("At", [PRef 0; PRef 3]); ("Pose", [PRef 9]);
    ("AtPose", [PRef 0; PRef 9]);
    ("Room", [PRef 1]); ("Location", [PRef 1]);
    ("Location", [PRef 3]); ("Is", [PRef 3; PStr "table"]);
    ("AtRoom", [PRef 3; PRef 1]);
    ("Type", [PStr "table"]);
    ("Obj", [PRef 4]); ("Is", [PRef 4; PStr "apple"]);
    ("At", [PRef 4; PRef 3]);
    ("Type", [PStr "apple"]) ].

(** The output for [lost_world]. *)
Definition lost_world_facts : list fact :=
  [ ("Robot", [PRef 0]); ("HandEmpty", [PRef 0]);
    ("At", [PRef 0; PNone]); ("Pose", [PRef 9]);
    ("AtPose", [PRef 0; PRef 9]);
    ("Room", [PRef 1]); ("Location", [PRef 1]);
    ("Location", [PRef 3]); ("Is", [PRef 3; PStr "table"]);
    ("AtRoom", [PRef 3; PRef 1]);
    ("Type", [PStr "table"]);
    ("Obj", [PRef 4]); ("Is", [PRef 4; PStr "apple"]);
    ("At", [PRef 4; PRef 3]);
    ("Type", [PStr "apple"]) ].

(** The output for [table_world]. *)
Definition table_world_facts : list fact :=
  [ ("Robot", [PRef 0]); ("HandEmpty", [PRef 0]);
    ("At", [PRef 0; PRef 3]); ("Pose", [PRef 9]);
    ("AtPose", [PRef 0; PRef 9]);
    ("Room", [PRef 1]); ("Location", [PRef 1]);
    ("Location", [PRef 3]); ("Is", [PRef 3; PStr "table"]);
    ("AtRoom", [PRef 3; PRef 1]);
    ("Type", [PStr "table"]);
    ("Obj", [PRef 4]); ("Is", [PRef 4; PStr "table"]);
    ("At", [PRef 4; PRef 3]);
    ("Type", [PStr "table"]) ].

(** The output for the kitchen world when the robot holds the apple. *)
Definition kitchen_facts_holding : list fact :=
  [ ("Robot", [PRef 0]);
    ("At", [PRef 0; PRef 3]); ("Pose", [PRef 9]);
    ("AtPose", [PRef 0; PRef 9]);
    ("Room", [PRef 1]); ("Location", [PRef 1]);
    ("Location", [PRef 3]); ("Is", [PRef 3; PStr "table"]);
    ("AtRoom", [PRef 3; PRef 1]);
    ("Type", [PStr "table"]);
    ("Obj", [PRef 4]); ("Is", [PRef 4; PStr "apple"]);
    ("Holding", [PRef 0; PRef 4]);
    ("Type", [PStr "apple"]) ].

(** ** Closed forms used by the proofs *)

Definition fHandEmpty (r : pyval) : fact := ("HandEmpty", [r]).
Definition fHolding (r o : pyval) : fact := ("Holding", [r; o]).
Definition fAt (x loc : pyval) : fact := ("At", [x; loc]).
Definition fType (cat : string) : fact := ("Type", [PStr cat]).

(** A fact that speaks of the hand of [r]: [HandEmpty(r)] or
    [Holding(r, _)]. *)
Definition hand_state_fact (r : pyval) (f : fact) : bool :=
  if decide (f.1 = "HandEmpty") then bool_decide (f.2 = [r])
  else if decide (f.1 = "Holding") then
    match f.2 with
    | [x; _] => bool_decide (x = r)
    | _ => false
    end
  else false.

(** How often the robot's manipulated object occurs in a list of objects. *)
Definition held_count (w : World) (objs : list nat) : nat :=
  length (filter (λ o, manipulated_object (robot w) = PRef o) objs).

Definition room_facts (room : nat) : list fact :=
  [("Room", [PRef room]); ("Location", [PRef room])].

Definition spawn_facts (w : World) (loc spawn : nat) : list fact :=
  [("Location", [PRef spawn]); ("Is", [PRef spawn; PStr (category w loc)]);
   ("AtRoom", [PRef spawn; parent w loc])].

Definition loc_facts (w : World) (loc : nat) : list fact :=
  children w loc ≫= spawn_facts w loc.

Definition loc_categories (w : World) : gset string :=
  list_to_set (category w <$> locations w).

Definition obj_categories (w : World) : gset string :=
  list_to_set (category w <$> objects w).

(** Everything emitted between the robot's facts and the objects' facts. *)
Definition scene_facts (w : World) : list fact :=
  (rooms w ≫= room_facts) ++ (locations w ≫= loc_facts w)
  ++ (fType <$> elements (loc_categories w)).

Definition obj_facts (w : World) (obj : nat) : list fact :=
  [("Obj", [PRef obj]); ("Is", [PRef obj; PStr (category w obj)]);
   if decide (manipulated_object (robot w) = PRef obj)
   then fHolding (robot_ref w) (PRef obj)
   else fAt (PRef obj) (parent w obj)].

(** The robot's facts once [HandEmpty] has been retracted. *)
Definition robot_facts_holding (w : World) : list fact :=
  [ ("Robot", [robot_ref w]);
    ("At", [robot_ref w; init_loc w]);
    ("Pose", [pose (robot w)]);
    ("AtPose", [robot_ref w; pose (robot w)]) ].

(** The same world with another manipulated-object reference. *)
Definition with_manipulated_object (w : World) (v : pyval) : World :=
  {| robot := {| robot_id := robot_id (robot w);
                 location := location (robot w);
                 pose := pose (robot w);
                 manipulated_object := v |};
     rooms := rooms w; locations := locations w; objects := objects w;
     category := category w; parent := parent w; children := children w;
     get_location_from_pose := get_location_from_pose w |}.

(** ** The decoder's side of the claims *)

(** The tags the decoder knows. *)
Definition recognized (tag : string) : Prop :=
  tag = "navigate" ∨ tag = "pick" ∨ tag = "place".

Global Instance recognized_dec tag : Decision (recognized tag).
Proof. unfold recognized. apply _. Defined.

(** A recognized action with its first three positional arguments. *)
Definition has_three_args (a : PDDLAction) : Prop :=
  recognized (name a) → 3 ≤ length (args a).

(** A recognized action that lacks one of them. *)
Definition short_action (a : PDDLAction) : Prop :=
  recognized (name a) ∧ length (args a) < 3.

(** The positional reading of one planner action, in the words of the
    specification. Positional argument [n] is [args !! (n - 1)]. *)
Definition decoded_positionally (a : PDDLAction) (t : TaskAction) : Prop :=
  Actions.type t = name a ∧
  (name a = "navigate" →
     args a !! 1 = Some (Actions.source_location t) ∧
     args a !! 2 = Some (Actions.target_location t) ∧
     ((∃ p, p ∈ drop 3 (args a) ∧ isinstance_Path p) →
        Actions.path t ∈ drop 3 (args a) ∧ isinstance_Path (Actions.path t)) ∧
     ((∀ p, p ∈ drop 3 (args a) → ¬ isinstance_Path p) →
        Actions.path t = PNone)) ∧
  (name a = "pick" ∨ name a = "place" →
     args a !! 1 = Some (Actions.object t) ∧
     args a !! 2 = Some (Actions.target_location t) ∧
     (3 < length (args a) → args a !! 3 = Some (Actions.pose t)) ∧
     (length (args a) ≤ 3 → Actions.pose t = PNone)).

(** ** Concrete solutions *)

(** Scenario B of the specification: one navigate action with the
    arguments (Bot, S, Kitchen, path). *)
Definition navigate_action : PDDLAction :=
  {| name := "navigate"; args := [PRef 0; PRef 3; PRef 5; PPath 1] |}.

(** Scenario C: one pick action with the arguments (Bot, O, S). *)
Definition pick_action : PDDLAction :=
  {| name := "pick"; args := [PRef 0; PRef 4; PRef 3] |}.

(** An action of a tag the decoder does not know, without arguments. *)
Definition detect_action : PDDLAction :=
  {| name := "detect"; args := [] |}.

(** What scenario B decodes to. *)
Definition navigate_plan : TaskPlan :=
  {| Actions.actions :=
       [ {| Actions.type := "navigate"; Actions.object := PNone;
            Actions.source_location := PRef 3;
            Actions.target_location := PRef 5;
            Actions.pose := PNone; Actions.path := PPath 1 |} ];
     Actions.total_cost := (9 # 2)%Q |}.

(** What the three actions navigate, detect, pick decode to. *)
Definition mixed_plan : TaskPlan :=
  {| Actions.actions :=
       [ {| Actions.type := "navigate"; Actions.object := PNone;
            Actions.source_location := PRef 3;
            Actions.target_location := PRef 5;
            Actions.pose := PNone; Actions.path := PPath 1 |};
         Actions.new "detect";
         {| Actions.type := "pick"; Actions.object := PRef 4;
            Actions.source_location := PNone;
            Actions.target_location := PRef 3;
            Actions.pose := PNone; Actions.path := PNone |} ];
     Actions.total_cost := (9 # 2)%Q |}.

(** A navigate action that lacks its target. *)
Definition short_navigate_action : PDDLAction :=
  {| name := "navigate"; args := [PRef 0; PRef 3] |}.

(** ** Facts by predicate *)

Definition fRoom (room : nat) : fact := ("Room", [PRef room]).
Definition fLocation (loc : nat) : fact := ("Location", [PRef loc]).
Definition fObj (obj : nat) : fact := ("Obj", [PRef obj]).
Definition fIs (x : nat) (cat : string) : fact := ("Is", [PRef x; PStr cat]).
Definition fAtRoom (spawn : nat) (room : pyval) : fact :=
  ("AtRoom", [PRef spawn; room]).

(** The facts of a list that are under the predicate [n]. *)
Definition facts_named (n : string) (facts : list fact) : list fact :=
  filter (λ f : fact, f.1 = n) facts.

(** The predicates the encoder uses, each with the number of arguments it
    is given in the code. *)
Definition vocabulary : list (string * nat) :=
  [ ("Robot", 1); ("HandEmpty", 1); ("At", 2); ("Pose", 1); ("AtPose", 2);
    ("Room", 1); ("Location", 1); ("Is", 2); ("AtRoom", 2); ("Type", 1);
    ("Obj", 1); ("Holding", 2) ].

(** The kitchen world with the apple listed twice among the objects, the
    robot holding it. *)
Definition relisted_world : World :=
  {| robot := robot (kitchen_world (PRef 4));
     rooms := [1]; locations := [2]; objects := [4; 4];
     category := category (kitchen_world (PRef 4));
     parent := parent (kitchen_world (PRef 4));
     children := children (kitchen_world (PRef 4));
     get_location_from_pose := λ _, PNone |}.

(** Two planner actions that differ at most in their first positional
    argument, the robot. *)
Definition same_but_first_arg (a b : PDDLAction) : Prop :=
  name a = name b ∧ tail (args a) = tail (args b).

(** The fields the decoder leaves alone, by tag. *)
Definition other_fields_unset (a : PDDLAction) (t : TaskAction) : Prop :=
  (name a = "navigate" →
     Actions.object t = PNone ∧ Actions.pose t = PNone) ∧
  (name a = "pick" ∨ name a = "place" →
     Actions.source_location t = PNone ∧ Actions.path t = PNone) ∧
  (¬ recognized (name a) → t = Actions.new (name a)).

(** The last argument of type Path among the arguments after the third,
    [None] when there is none. *)
Definition last_path (a : PDDLAction) : pyval :=
  default PNone (last (filter (λ v, isinstance_Path v) (drop 3 (args a)))).

(** A navigate action with two paths among its arguments. *)
Definition two_paths_action : PDDLAction :=
  {| name := "navigate";
     args := [PRef 0; PRef 3; PRef 5; PPath 1; PRef 8; PPath 2] |}.

(** What it decodes to. *)
Definition two_paths_plan : TaskPlan :=
  {| Actions.actions :=
       [ {| Actions.type := "navigate"; Actions.object := PNone;
            Actions.source_location := PRef 3;
            Actions.target_location := PRef 5;
            Actions.pose := PNone; Actions.path := PPath 2 |} ];
     Actions.total_cost := (9 # 2)%Q |}.

(** ** world/utils.py: add_coords *)

(** The coordinates are numbers of any kind with their addition; a
    coordinate tuple and the offset are sequences of numbers. *)
Section Coords.
Variable num : Type.
Variable add : num → num → num.

(** [t[i]] on a sequence of numbers. *)
Definition getitem (t : list num) (i : nat) : result num :=
  match t !! i with
  | Some v => Ok v
  | None => Raise IndexError
  end.

(** The list comprehension [[f(c) for c in l]]: the first exception ends
    it. *)
Fixpoint comprehension {A B : Type} (f : A → result B) (l : list A)
  : result (list B) :=
  match l with
  | [] => Ok []
  | c :: l' => y ← f c; ys ← comprehension f l'; Ok (y :: ys)
  end.

(** [(c[0]+x, c[1]+y)] *)
Definition add_coord (x y : num) (c : list num) : result (num * num) :=
  c0 ← getitem c 0;
  c1 ← getitem c 1;
  Ok (add c0 x, add c1 y).

(** [x, y = offset] raises [ValueError] unless [offset] has exactly two
    components. *)
Definition add_coords (coords : list (list num)) (offset : list num)
  : result (list (num * num)) :=
  match offset with
  | [x; y] => comprehension (add_coord x y) coords
  | _ => Raise ValueError
  end.
End Coords.

Arguments getitem {num} t i.
Arguments add_coord {num} add x y c.
Arguments add_coords {num} add coords offset.

(** ** Tactics for the predicates' names *)

Ltac name_in_list := apply list_elem_of_In; simpl; tauto.
Ltac name_not_in_list H :=
  apply list_elem_of_In in H; simpl in H; intuition discriminate.
Ltac names_disjoint H1 H2 :=
  apply list_elem_of_In in H1; apply list_elem_of_In in H2;
  simpl in H1, H2; intuition congruence.

(** * Properties of the encoder *)

Example kitchen_hand_empty :
  world_to_pddlstream_init (kitchen_world PNone) = Ok kitchen_facts.
Proof. vm_compute. reflexivity. Qed.

Example kitchen_holding :
  world_to_pddlstream_init (kitchen_world (PRef 4)) = Ok kitchen_facts_holding.
Proof. vm_compute. reflexivity. Qed.

Example dangling_facts :
  world_to_pddlstream_init dangling_world = Ok kitchen_facts.
Proof. vm_compute. reflexivity. Qed.

Section LoopLemmas.
Variable w : World.

Lemma fold_room_step rs init :
  fold_left (room_step) rs init = init ++ (rs ≫= room_facts).
Proof.
  revert init. induction rs as [|r rs IH]; intros init; simpl.
  - by rewrite app_nil_r.
  - rewrite IH. unfold room_step. by rewrite <- !app_assoc.
Qed.

Lemma fold_spawn_step loc cs init :
  fold_left (spawn_step w loc) cs init = init ++ (cs ≫= spawn_facts w loc).
Proof.
  revert init. induction cs as [|c cs IH]; intros init; simpl.
  - by rewrite app_nil_r.
  - rewrite IH. unfold spawn_step. by rewrite <- !app_assoc.
Qed.

Lemma fold_loc_step ls init (cats : gset string) :
  fold_left (loc_step w) ls (init, cats) =
  (init ++ (ls ≫= loc_facts w), cats ∪ list_to_set (category w <$> ls)).
Proof.
  revert init cats. induction ls as [|l ls IH]; intros init cats; simpl.
  - rewrite app_nil_r. f_equal. by rewrite (right_id_L ∅ (∪)).
  - unfold loc_step at 2. simpl. rewrite IH, fold_spawn_step.
    rewrite <- app_assoc. f_equal. by rewrite (assoc_L (∪)).
Qed.

Lemma fold_type_step cs init :
  fold_left type_step cs init = init ++ (fType <$> cs).
Proof.
  revert init. induction cs as [|c cs IH]; intros init; simpl.
  - by rewrite app_nil_r.
  - rewrite IH. unfold type_step. by rewrite <- app_assoc.
Qed.
End LoopLemmas.

Lemma list_remove_absent x l : x ∉ l → list_remove x l = Raise ValueError.
Proof.
  induction l as [|y l IH]; intros Hx; simpl; [done|].
  apply not_elem_of_cons in Hx as [Hne Hl].
  rewrite decide_False by done. by rewrite IH.
Qed.

Lemma list_remove_first x l1 l2 :
  x ∉ l1 → list_remove x (l1 ++ x :: l2) = Ok (l1 ++ l2).
Proof.
  induction l1 as [|y l1 IH]; intros Hx; simpl.
  - by rewrite decide_True.
  - apply not_elem_of_cons in Hx as [Hne Hl].
    rewrite decide_False by done. by rewrite IH.
Qed.

Lemma for_each_cons {A S : Type} (body : S → A → result S) x xs s :
  for_each body (x :: xs) s = body s x ≫= for_each body xs.
Proof. reflexivity. Qed.

Lemma Ok_inj {A : Type} (a b : A) : Ok a = Ok b → a = b.
Proof. congruence. Qed.

Lemma bind_Ok {A B : Type} (f : A → result B) a : Ok a ≫= f = f a.
Proof. reflexivity. Qed.

Lemma bind_Raise {A B : Type} (f : A → result B) e : Raise e ≫= f = Raise e.
Proof. reflexivity. Qed.

Section ObjectsLoop.
Variable w : World.

Let h : fact := fHandEmpty (robot_ref w).
Local Abbreviation held o := (manipulated_object (robot w) = PRef o).

Lemma held_count_cons o objs :
  held_count w (o :: objs) =
  (if decide (held o) then 1 else 0) + held_count w objs.
Proof.
  unfold held_count. rewrite filter_cons. by case_decide.
Qed.

Lemma hand_empty_not_obj_fact o : h ∉ obj_facts w o.
Proof.
  unfold obj_facts, h, fHandEmpty, fHolding, fAt.
  rewrite !elem_of_cons, elem_of_nil.
  intros [H|[H|[H|[]]]]; [done|done|]. by case_decide.
Qed.

Lemma obj_step_free init (cats : gset string) o :
  ¬ held o →
  obj_step w (init, cats) o =
  Ok (init ++ obj_facts w o, cats ∪ {[category w o]}).
Proof.
  intros Hne. unfold obj_step, obj_facts.
  rewrite !decide_False by done.
  cbn [fst snd]. rewrite bind_Ok. by rewrite <- !app_assoc.
Qed.

Lemma obj_step_held A B (cats : gset string) o :
  held o → h ∉ A →
  obj_step w (A ++ h :: B, cats) o =
  Ok (A ++ B ++ obj_facts w o, cats ∪ {[category w o]}).
Proof.
  intros Heq HA. unfold obj_step, obj_facts.
  rewrite !decide_True by done. cbn [fst snd].
  rewrite <- app_assoc, <- app_comm_cons.
  fold (fHandEmpty (robot_ref w)). fold h.
  rewrite list_remove_first by done.
  rewrite !bind_Ok. by rewrite <- !app_assoc.
Qed.

Lemma obj_step_retracted init (cats : gset string) o :
  held o → h ∉ init →
  obj_step w (init, cats) o = Raise ValueError.
Proof.
  intros Heq Hh. unfold obj_step.
  rewrite !decide_True by done. cbn [fst snd].
  fold (fHandEmpty (robot_ref w)). fold h.
  rewrite list_remove_absent; [done|].
  rewrite !not_elem_of_app, !not_elem_of_cons.
  repeat split; try done; apply not_elem_of_nil.
Qed.

(** The loop over the objects once [HandEmpty] is gone: a further match
    of the manipulated object makes [remove] raise. *)
Lemma objects_loop_retracted objs init (cats : gset string) :
  h ∉ init →
  for_each (obj_step w) objs (init, cats) =
  if decide (held_count w objs = 0)
  then Ok (init ++ (objs ≫= obj_facts w),
           cats ∪ list_to_set (category w <$> objs))
  else Raise ValueError.
Proof.
  revert init cats. induction objs as [|o objs IH]; intros init cats Hh.
  - cbn. rewrite app_nil_r. by rewrite (right_id_L ∅ (∪)).
  - rewrite held_count_cons, for_each_cons.
    destruct (decide (held o)) as [Heq|Hne].
    + by rewrite obj_step_retracted.
    + rewrite obj_step_free, bind_Ok by done.
      rewrite IH.
      * rewrite bind_cons, fmap_cons, list_to_set_cons.
        by rewrite <- app_assoc, (assoc_L (∪)).
      * rewrite not_elem_of_app. split; [done|].
        apply hand_empty_not_obj_fact.
Qed.

(** The loop over the objects while [HandEmpty] is still in the list. *)
Lemma objects_loop objs A B (cats : gset string) :
  h ∉ A → h ∉ B →
  for_each (obj_step w) objs (A ++ h :: B, cats) =
  match held_count w objs with
  | 0 => Ok (A ++ h :: B ++ (objs ≫= obj_facts w),
             cats ∪ list_to_set (category w <$> objs))
  | 1 => Ok (A ++ B ++ (objs ≫= obj_facts w),
             cats ∪ list_to_set (category w <$> objs))
  | _ => Raise ValueError
  end.
Proof.
  intros HA. revert B cats.
  induction objs as [|o objs IH]; intros B cats HB.
  - cbn. rewrite app_nil_r. by rewrite (right_id_L ∅ (∪)).
  - rewrite held_count_cons, for_each_cons.
    rewrite bind_cons, fmap_cons, list_to_set_cons, (assoc_L (∪)).
    destruct (decide (held o)) as [Heq|Hne].
    + rewrite obj_step_held, bind_Ok by done.
      rewrite objects_loop_retracted.
      * destruct (held_count w objs) as [|n]; cbn; [|done].
        by rewrite <- !app_assoc.
      * rewrite !not_elem_of_app. repeat split; [done|done|].
        apply hand_empty_not_obj_fact.
    + rewrite obj_step_free, bind_Ok by done.
      rewrite <- app_assoc, <- app_comm_cons.
      rewrite IH.
      * cbn [Nat.add]. by rewrite <- !app_assoc.
      * rewrite not_elem_of_app. split; [done|].
        apply hand_empty_not_obj_fact.
Qed.
End ObjectsLoop.

(** ** Which predicates each part of the output uses *)

Lemma room_fact_names room f :
  f ∈ room_facts room → f.1 ∈ ["Room"; "Location"].
Proof.
  unfold room_facts. intros Hf. apply list_elem_of_In in Hf.
  destruct Hf as [<-|[<-|[]]]; name_in_list.
Qed.

Lemma loc_fact_names w loc f :
  f ∈ loc_facts w loc → f.1 ∈ ["Location"; "Is"; "AtRoom"].
Proof.
  unfold loc_facts. rewrite list_elem_of_bind.
  intros (spawn & Hf & _). apply list_elem_of_In in Hf.
  destruct Hf as [<-|[<-|[<-|[]]]]; name_in_list.
Qed.

Lemma scene_fact_names w f :
  f ∈ scene_facts w → f.1 ∈ ["Room"; "Location"; "Is"; "AtRoom"; "Type"].
Proof.
  unfold scene_facts. rewrite !elem_of_app, !list_elem_of_bind, list_elem_of_fmap.
  intros [(room & Hf & _)|[(loc & Hf & _)|(cat & -> & _)]].
  - apply room_fact_names in Hf. revert Hf. generalize (f.1). intros s Hs.
    apply list_elem_of_In in Hs. simpl in Hs. name_in_list.
  - apply loc_fact_names in Hf. revert Hf. generalize (f.1). intros s Hs.
    apply list_elem_of_In in Hs. simpl in Hs. name_in_list.
  - name_in_list.
Qed.

Lemma obj_fact_names w obj f :
  f ∈ obj_facts w obj → f.1 ∈ ["Obj"; "Is"; "At"; "Holding"].
Proof.
  unfold obj_facts. intros Hf. apply list_elem_of_In in Hf.
  destruct Hf as [<-|[<-|[<-|[]]]]; [name_in_list|name_in_list|].
  case_decide; name_in_list.
Qed.

Lemma objects_fact_names w objs f :
  f ∈ objs ≫= obj_facts w → f.1 ∈ ["Obj"; "Is"; "At"; "Holding"].
Proof.
  rewrite list_elem_of_bind. intros (obj & Hf & _).
  by apply obj_fact_names in Hf.
Qed.

Lemma type_fact_names (cats : list string) f :
  f ∈ fType <$> cats → f.1 = "Type".
Proof. rewrite list_elem_of_fmap. by intros (cat & -> & _). Qed.

Lemma hand_empty_not_scene_fact w r : fHandEmpty r ∉ scene_facts w.
Proof. intros H. apply scene_fact_names in H. name_not_in_list H. Qed.

(** The encoder in closed form: the robot's facts, the scene, the objects
    and their categories, with [HandEmpty] retracted when the manipulated
    object is met once; meeting it a second time raises [ValueError]. *)
Lemma world_to_pddlstream_init_closed (w : World) :
  world_to_pddlstream_init w =
  match held_count w (objects w) with
  | 0 => Ok (robot_facts w ++ scene_facts w
               ++ (objects w ≫= obj_facts w)
               ++ (fType <$> elements (obj_categories w)))
  | 1 => Ok (robot_facts_holding w ++ scene_facts w
               ++ (objects w ≫= obj_facts w)
               ++ (fType <$> elements (obj_categories w)))
  | _ => Raise ValueError
  end.
Proof.
  unfold world_to_pddlstream_init.
  rewrite fold_room_step, fold_loc_step, fold_type_step.
  rewrite (left_id_L ∅ (∪)), <- !app_assoc.
  change ((rooms w ≫= room_facts) ++ (locations w ≫= loc_facts w)
          ++ (fType <$> elements (list_to_set (category w <$> locations w))))
    with (scene_facts w).
  change (robot_facts w ++ scene_facts w) with
    ([("Robot", [robot_ref w])] ++ fHandEmpty (robot_ref w)
       :: ([fAt (robot_ref w) (init_loc w); ("Pose", [pose (robot w)]);
            ("AtPose", [robot_ref w; pose (robot w)])] ++ scene_facts w)).
  rewrite objects_loop.
  - rewrite (left_id_L ∅ (∪)).
    destruct (held_count w (objects w)) as [|[|n]]; [| |done];
      rewrite bind_Ok, fold_type_step;
      unfold robot_facts, robot_facts_holding; cbn [app];
      rewrite <- ?app_assoc; reflexivity.
  - rewrite not_elem_of_cons. split; [done|apply not_elem_of_nil].
  - rewrite not_elem_of_app, !not_elem_of_cons.
    repeat split; try done; [apply not_elem_of_nil|].
    apply hand_empty_not_scene_fact.
Qed.

(** ** Counting facts *)

Lemma filter_none {A} (P : A → Prop) `{!∀ x, Decision (P x)} (l : list A) :
  (∀ x, x ∈ l → ¬ P x) → filter P l = [].
Proof.
  induction l as [|y l IH]; intros Hl; [done|].
  rewrite filter_cons_False by (apply Hl; left).
  apply IH. intros x Hx. apply Hl. by right.
Qed.

Lemma filter_singleton_unique {A} (P : A → Prop) `{!∀ x, Decision (P x)}
    (l : list A) x y :
  length (filter P l) = 1 → x ∈ l → P x → y ∈ l → P y → x = y.
Proof.
  intros Hlen Hx HPx Hy HPy.
  destruct (filter P l) as [|z [|z' l']] eqn:Hf; try done.
  assert (Hx' : x ∈ filter P l) by by apply list_elem_of_filter.
  assert (Hy' : y ∈ filter P l) by by apply list_elem_of_filter.
  rewrite Hf in Hx', Hy'.
  apply list_elem_of_singleton in Hx', Hy'. congruence.
Qed.

Lemma filter_singleton_exists {A} (P : A → Prop) `{!∀ x, Decision (P x)}
    (l : list A) :
  length (filter P l) = 1 → ∃ x, x ∈ l ∧ P x.
Proof.
  intros Hlen.
  destruct (filter P l) as [|z l'] eqn:Hf; [done|].
  exists z. assert (Hz : z ∈ filter P l) by (rewrite Hf; left).
  apply list_elem_of_filter in Hz. tauto.
Qed.

(** In a list without duplicates an element is counted once or not at
    all. *)
Lemma count_NoDup {A} `{EqDecision A} (l : list A) x :
  NoDup l →
  length (filter (λ y, y = x) l) = if decide (x ∈ l) then 1 else 0.
Proof.
  induction 1 as [|y l Hy Hnd IH]; [done|].
  rewrite filter_cons. destruct (decide (y = x)) as [->|Hne].
  - rewrite decide_True by left. simpl. rewrite IH.
    by rewrite decide_False.
  - rewrite IH. destruct (decide (x ∈ l)) as [Hin|Hnin].
    + rewrite decide_True; [done|by right].
    + rewrite decide_False; [done|].
      rewrite not_elem_of_cons. split; [congruence|done].
Qed.

Lemma hand_state_fact_HandEmpty r : hand_state_fact r (fHandEmpty r) = true.
Proof. unfold hand_state_fact. simpl. by rewrite bool_decide_true. Qed.

Lemma hand_state_fact_Holding r o : hand_state_fact r (fHolding r o) = true.
Proof. unfold hand_state_fact. simpl. by rewrite bool_decide_true. Qed.

Lemma hand_state_fact_name r f :
  hand_state_fact r f → f.1 ∈ ["HandEmpty"; "Holding"].
Proof.
  destruct f as [n a]. unfold hand_state_fact. simpl.
  destruct (decide (n = "HandEmpty")) as [->|_]; [intros _; name_in_list|].
  destruct (decide (n = "Holding")) as [->|_]; [intros _; name_in_list|].
  done.
Qed.

Lemma hand_state_fact_inv r f :
  hand_state_fact r f → f = fHandEmpty r ∨ ∃ o, f = fHolding r o.
Proof.
  destruct f as [n a]. unfold hand_state_fact, fHandEmpty, fHolding. simpl.
  destruct (decide (n = "HandEmpty")) as [->|_].
  { intros ->%bool_decide_unpack. by left. }
  destruct (decide (n = "Holding")) as [->|_]; [|done].
  destruct a as [|x [|o [|? ?]]]; try done.
  intros ->%bool_decide_unpack. right. by exists o.
Qed.

Lemma hand_state_scene_facts w r :
  filter (hand_state_fact r) (scene_facts w) = [].
Proof.
  apply filter_none. intros f Hf Hh.
  apply scene_fact_names in Hf. apply hand_state_fact_name in Hh.
  names_disjoint Hf Hh.
Qed.

Lemma hand_state_type_facts (cats : list string) r :
  filter (hand_state_fact r) (fType <$> cats) = [].
Proof.
  apply filter_none. intros f Hf Hh.
  apply type_fact_names in Hf. apply hand_state_fact_name in Hh.
  rewrite Hf in Hh. name_not_in_list Hh.
Qed.

Lemma hand_state_obj_facts w objs :
  length (filter (hand_state_fact (robot_ref w)) (objs ≫= obj_facts w))
  = held_count w objs.
Proof.
  induction objs as [|o objs IH]; [done|].
  rewrite bind_cons, filter_app, length_app, IH, held_count_cons.
  f_equal. unfold obj_facts.
  do 2 rewrite filter_cons_False
    by (intros Hh%hand_state_fact_name; name_not_in_list Hh).
  case_decide.
  - rewrite filter_cons_True; [done|].
    by rewrite hand_state_fact_Holding.
  - by rewrite filter_cons_False
      by (intros Hh%hand_state_fact_name; name_not_in_list Hh).
Qed.

Lemma hand_state_robot_facts w :
  filter (hand_state_fact (robot_ref w)) (robot_facts w)
  = [fHandEmpty (robot_ref w)].
Proof.
  unfold robot_facts.
  rewrite filter_cons_False
    by (intros Hh%hand_state_fact_name; name_not_in_list Hh).
  rewrite filter_cons_True by (by rewrite hand_state_fact_HandEmpty).
  reflexivity.
Qed.

Lemma hand_state_robot_facts_holding w :
  filter (hand_state_fact (robot_ref w)) (robot_facts_holding w) = [].
Proof.
  apply filter_none. intros f Hf Hh%hand_state_fact_name.
  apply list_elem_of_In in Hf.
  destruct Hf as [<-|[<-|[<-|[<-|[]]]]]; name_not_in_list Hh.
Qed.

(** The encoder returns a list unless it meets the manipulated object
    twice among the world's objects. *)
Lemma world_to_pddlstream_init_returns w :
  held_count w (objects w) ≤ 1 ↔ ∃ facts, world_to_pddlstream_init w = Ok facts.
Proof.
  rewrite world_to_pddlstream_init_closed.
  destruct (held_count w (objects w)) as [|[|n]].
  - split; [eauto|lia].
  - split; [eauto|lia].
  - split; [lia|]. by intros [facts ?].
Qed.

Lemma hand_state_count w facts :
  world_to_pddlstream_init w = Ok facts →
  length (filter (hand_state_fact (robot_ref w)) facts) = 1.
Proof.
  rewrite world_to_pddlstream_init_closed.
  destruct (held_count w (objects w)) as [|[|n]] eqn:Hc; [| |done];
    intros <-%Ok_inj; rewrite !filter_app, !length_app;
    rewrite hand_state_scene_facts, hand_state_type_facts,
      hand_state_obj_facts, Hc.
  - by rewrite hand_state_robot_facts.
  - by rewrite hand_state_robot_facts_holding.
Qed.

(** [C1] For every world model, the fact list returned by
    [world_to_pddlstream_init] holds exactly one fact about the robot's
    hand, [HandEmpty(robot)] or [Holding(robot, obj)]: never both, never
    neither.  A list is returned whenever the manipulated object occurs at
    most once among the world's objects. *)
Theorem hand_state_exactly_one (w : World) :
  (held_count w (objects w) ≤ 1 →
   ∃ facts, world_to_pddlstream_init w = Ok facts) ∧
  (∀ facts, world_to_pddlstream_init w = Ok facts →
     length (filter (hand_state_fact (robot_ref w)) facts) = 1 ∧
     (fHandEmpty (robot_ref w) ∈ facts ↔
      ¬ ∃ o, fHolding (robot_ref w) o ∈ facts)).
Proof.
  split; [apply world_to_pddlstream_init_returns|].
  intros facts Hc%hand_state_count. split; [done|]. split.
  - intros Hh [o Ho].
    assert (fHandEmpty (robot_ref w) = fHolding (robot_ref w) o); [|done].
    eapply (filter_singleton_unique _ _ _ _ Hc); try done.
    + by rewrite hand_state_fact_HandEmpty.
    + by rewrite hand_state_fact_Holding.
  - intros Hno.
    destruct (filter_singleton_exists _ _ Hc) as (f & Hf & Hh).
    apply hand_state_fact_inv in Hh as [->|[o ->]]; [done|].
    destruct Hno. by exists o.
Qed.

Lemma hand_state_exactly_one_witness :
  (∃ facts, world_to_pddlstream_init (kitchen_world PNone) = Ok facts) ∧
  length (filter (hand_state_fact (PRef 0)) kitchen_facts) = 1 ∧
  (fHandEmpty (PRef 0) ∈ kitchen_facts ↔
   ¬ ∃ o, fHolding (PRef 0) o ∈ kitchen_facts).
Proof.
  destruct (hand_state_exactly_one (kitchen_world PNone)) as [Hret Hone].
  split.
  - apply Hret. vm_compute. lia.
  - apply Hone. vm_compute. reflexivity.
Defined.

(** ** A manipulated object the world does not list *)

Lemma held_count_absent w objs :
  (∀ o, o ∈ objs → manipulated_object (robot w) ≠ PRef o) →
  held_count w objs = 0.
Proof.
  intros Hno. unfold held_count. by rewrite filter_none.
Qed.

(** [C4], as the specification states it, fails: with the robot's
    manipulated-object reference at an object 7 that the world does not
    list, the output has no [Holding(robot, 7)] fact and still has
    [HandEmpty(robot)]. *)
Lemma dangling_reference_counterexample :
  manipulated_object (robot dangling_world) = PRef 7 ∧
  (7 ∉ objects dangling_world) ∧
  world_to_pddlstream_init dangling_world = Ok kitchen_facts ∧
  (fHolding (robot_ref dangling_world) (PRef 7) ∉ kitchen_facts) ∧
  fHandEmpty (robot_ref dangling_world) ∈ kitchen_facts.
Proof. repeat split; compute_done. Qed.

(** [C4], amended: when the manipulated-object reference points to an
    object that is not among the world's objects, the encoder returns a
    list that keeps [HandEmpty(robot)] and has no [Holding] fact of the
    robot at all: the reference is never looked at on its own. *)
Theorem dangling_reference_keeps_hand_empty (w : World) (o : nat) :
  manipulated_object (robot w) = PRef o →
  o ∉ objects w →
  ∃ facts, world_to_pddlstream_init w = Ok facts ∧
    fHandEmpty (robot_ref w) ∈ facts ∧
    ∀ x, fHolding (robot_ref w) x ∉ facts.
Proof.
  intros Hm Ho.
  assert (Hc : held_count w (objects w) = 0).
  { apply held_count_absent. intros o' Ho'. rewrite Hm. congruence. }
  pose proof (world_to_pddlstream_init_closed w) as Hcl. rewrite Hc in Hcl.
  eexists. split; [exact Hcl|].
  assert (Hh : fHandEmpty (robot_ref w) ∈
    robot_facts w ++ scene_facts w ++ (objects w ≫= obj_facts w)
      ++ (fType <$> elements (obj_categories w))).
  { apply elem_of_app. left. unfold robot_facts. right. left. }
  split; [done|]. intros x Hx.
  assert (fHandEmpty (robot_ref w) = fHolding (robot_ref w) x); [|done].
  eapply (filter_singleton_unique _ _ _ _ (hand_state_count _ _ Hcl));
    try done.
  - by rewrite hand_state_fact_HandEmpty.
  - by rewrite hand_state_fact_Holding.
Qed.

Lemma dangling_reference_keeps_hand_empty_witness :
  ∃ facts, world_to_pddlstream_init dangling_world = Ok facts ∧
    fHandEmpty (robot_ref dangling_world) ∈ facts ∧
    ∀ x, fHolding (robot_ref dangling_world) x ∉ facts.
Proof.
  apply (dangling_reference_keeps_hand_empty dangling_world 7).
  - reflexivity.
  - compute_done.
Defined.

(** ** The robot's location and pose facts *)

Example lost_facts :
  world_to_pddlstream_init lost_world = Ok lost_world_facts.
Proof. vm_compute. reflexivity. Qed.

(** [C5], as the specification states it, fails: with no recorded location
    and a pose lookup that yields [None], the output is not without an
    [At] fact of the robot: it has [At(robot, None)]. *)
Lemma unresolved_location_counterexample :
  location (robot lost_world) = PNone ∧
  get_location_from_pose lost_world (pose (robot lost_world)) = PNone ∧
  world_to_pddlstream_init lost_world = Ok lost_world_facts ∧
  fAt (robot_ref lost_world) PNone ∈ lost_world_facts.
Proof. repeat split; compute_done. Qed.

Lemma robot_At_emitted w facts :
  world_to_pddlstream_init w = Ok facts →
  fAt (robot_ref w) (init_loc w) ∈ facts.
Proof.
  rewrite world_to_pddlstream_init_closed.
  destruct (held_count w (objects w)) as [|[|n]]; [| |done];
    intros <-%Ok_inj; apply elem_of_app; left.
  - unfold robot_facts. do 2 right. left.
  - unfold robot_facts_holding. right. left.
Qed.

(** [C5], amended: when the robot has no recorded location and the
    pose-based lookup yields [None], the encoder does not raise on that
    account and emits the fact [At(robot, None)]: the location argument is
    empty, the fact is not left out. *)
Theorem unresolved_location_emits_At_None (w : World) :
  truthy (location (robot w)) = false →
  get_location_from_pose w (pose (robot w)) = PNone →
  (held_count w (objects w) ≤ 1 →
   ∃ facts, world_to_pddlstream_init w = Ok facts) ∧
  (∀ facts, world_to_pddlstream_init w = Ok facts →
     fAt (robot_ref w) PNone ∈ facts).
Proof.
  intros Hloc Hpose. split; [apply world_to_pddlstream_init_returns|].
  intros facts Hf%robot_At_emitted.
  unfold init_loc in Hf. by rewrite Hloc, Hpose in Hf.
Qed.

Lemma unresolved_location_emits_At_None_witness :
  (∃ facts, world_to_pddlstream_init lost_world = Ok facts) ∧
  fAt (PRef 0) PNone ∈ lost_world_facts.
Proof.
  destruct (unresolved_location_emits_At_None lost_world) as [Hret Hat];
    [reflexivity|reflexivity|].
  split.
  - apply Hret. vm_compute. lia.
  - apply (Hat lost_world_facts). vm_compute. reflexivity.
Defined.

Lemma filter_name_scene_facts w n :
  n ∉ ["Room"; "Location"; "Is"; "AtRoom"; "Type"] →
  filter (λ f : fact, f.1 = n) (scene_facts w) = [].
Proof.
  intros Hn. apply filter_none. intros f Hf%scene_fact_names Hfn.
  by rewrite Hfn in Hf.
Qed.

Lemma filter_name_obj_facts w objs n :
  n ∉ ["Obj"; "Is"; "At"; "Holding"] →
  filter (λ f : fact, f.1 = n) (objs ≫= obj_facts w) = [].
Proof.
  intros Hn. apply filter_none. intros f Hf%objects_fact_names Hfn.
  by rewrite Hfn in Hf.
Qed.

Lemma filter_name_type_facts (cats : list string) n :
  n ≠ "Type" → filter (λ f : fact, f.1 = n) (fType <$> cats) = [].
Proof.
  intros Hn. apply filter_none. intros f Hf%type_fact_names Hfn. congruence.
Qed.

(** [C6], as the specification states it, fails: the output for the
    kitchen world has no binary fact [Pose(robot, pose)]; its pose fact is
    the unary [Pose(pose)]. *)
Lemma pose_fact_counterexample :
  world_to_pddlstream_init (kitchen_world PNone) = Ok kitchen_facts ∧
  (("Pose", [robot_ref (kitchen_world PNone);
             pose (robot (kitchen_world PNone))]) ∉ kitchen_facts) ∧
  ("Pose", [pose (robot (kitchen_world PNone))]) ∈ kitchen_facts.
Proof. repeat split; compute_done. Qed.

(** [C6], amended: for every world model the encoder emits the robot's
    pose fact as the unary predicate [Pose(pose)], arity 1; it is the only
    fact of the output under the predicate [Pose], and the robot appears
    with its pose only in [AtPose(robot, pose)]. *)
Theorem pose_fact_is_unary (w : World) :
  (held_count w (objects w) ≤ 1 →
   ∃ facts, world_to_pddlstream_init w = Ok facts) ∧
  (∀ facts, world_to_pddlstream_init w = Ok facts →
     filter (λ f : fact, f.1 = "Pose") facts = [("Pose", [pose (robot w)])] ∧
     (∀ f, f ∈ facts → f.1 = "Pose" → arity f = 1) ∧
     ("AtPose", [robot_ref w; pose (robot w)]) ∈ facts).
Proof.
  split; [apply world_to_pddlstream_init_returns|].
  intros facts Hf.
  assert (Hpose :
    filter (λ f : fact, f.1 = "Pose") facts = [("Pose", [pose (robot w)])]).
  { revert Hf. rewrite world_to_pddlstream_init_closed.
    destruct (held_count w (objects w)) as [|[|n]]; [| |done];
      intros <-%Ok_inj; rewrite !filter_app;
      rewrite filter_name_scene_facts, filter_name_obj_facts,
        filter_name_type_facts by (done || compute_done);
      reflexivity. }
  split; [done|]. split.
  - intros f Hin Hname.
    assert (Hin' : f ∈ filter (λ f : fact, f.1 = "Pose") facts)
      by by apply list_elem_of_filter.
    rewrite Hpose in Hin'. by apply list_elem_of_singleton in Hin' as ->.
  - revert Hf. rewrite world_to_pddlstream_init_closed.
    destruct (held_count w (objects w)) as [|[|n]]; [| |done];
      intros <-%Ok_inj; apply elem_of_app; left.
    + unfold robot_facts. do 4 right. left.
    + unfold robot_facts_holding. do 3 right. left.
Qed.

Lemma pose_fact_is_unary_witness :
  (∃ facts, world_to_pddlstream_init (kitchen_world PNone) = Ok facts) ∧
  filter (λ f : fact, f.1 = "Pose") kitchen_facts = [("Pose", [PRef 9])] ∧
  (∀ f, f ∈ kitchen_facts → f.1 = "Pose" → arity f = 1) ∧
  ("AtPose", [PRef 0; PRef 9]) ∈ kitchen_facts.
Proof.
  destruct (pose_fact_is_unary (kitchen_world PNone)) as [Hret Hpose].
  split.
  - apply Hret. vm_compute. lia.
  - apply Hpose. vm_compute. reflexivity.
Defined.

(** ** Type facts *)

Global Instance fType_inj : Inj (=) (=) fType.
Proof. by intros c1 c2 [= ->]. Qed.

Lemma type_count_type_facts (cats : gset string) c :
  length (filter (λ f, f = fType c) (fType <$> elements cats))
  = if decide (c ∈ cats) then 1 else 0.
Proof.
  rewrite count_NoDup by (apply (NoDup_fmap_2 _), NoDup_elements).
  destruct (decide (c ∈ cats)) as [Hin|Hnin].
  - rewrite decide_True; [done|].
    apply list_elem_of_fmap_2. by apply elem_of_elements.
  - rewrite decide_False; [done|].
    intros (c' & [= ->] & Hc')%list_elem_of_fmap.
    by apply elem_of_elements in Hc'.
Qed.

Lemma type_count_other (l : list fact) c :
  (∀ f, f ∈ l → f.1 ≠ "Type") →
  filter (λ f, f = fType c) l = [].
Proof.
  intros Hl. apply filter_none. intros f Hf ->. by apply (Hl _ Hf).
Qed.

(** How many [Type(c)] facts the output holds: one for the locations'
    categories and one more for the objects' categories. *)
Lemma type_fact_count w facts c :
  world_to_pddlstream_init w = Ok facts →
  length (filter (λ f, f = fType c) facts)
  = (if decide (c ∈ loc_categories w) then 1 else 0)
    + (if decide (c ∈ obj_categories w) then 1 else 0).
Proof.
  assert (Hrooms : filter (λ f, f = fType c) (rooms w ≫= room_facts) = []).
  { apply type_count_other. intros f (r & Hf & _)%list_elem_of_bind Hn.
    apply room_fact_names in Hf. rewrite Hn in Hf. name_not_in_list Hf. }
  assert (Hlocs :
    filter (λ f, f = fType c) (locations w ≫= loc_facts w) = []).
  { apply type_count_other. intros f (l & Hf & _)%list_elem_of_bind Hn.
    apply loc_fact_names in Hf. rewrite Hn in Hf. name_not_in_list Hf. }
  assert (Hobjs :
    filter (λ f, f = fType c) (objects w ≫= obj_facts w) = []).
  { apply type_count_other. intros f Hf%objects_fact_names Hn.
    rewrite Hn in Hf. name_not_in_list Hf. }
  rewrite world_to_pddlstream_init_closed.
  destruct (held_count w (objects w)) as [|[|n]]; [| |done];
    intros <-%Ok_inj; unfold scene_facts;
    rewrite !filter_app, !length_app, Hrooms, Hlocs, Hobjs,
      !type_count_type_facts;
    reflexivity.
Qed.

Example table_facts :
  world_to_pddlstream_init table_world = Ok table_world_facts.
Proof. vm_compute. reflexivity. Qed.

(** [C7], as the specification states it, fails: in a world whose location
    and whose object are both of category table, the output holds the fact
    [Type(table)] twice. *)
Lemma type_fact_counterexample :
  "table" ∈ category table_world <$> locations table_world ∧
  world_to_pddlstream_init table_world = Ok table_world_facts ∧
  length (filter (λ f, f = fType "table") table_world_facts) = 2.
Proof. repeat split; compute_done. Qed.

(** [C7], amended: for every category [c] of some location of the world,
    the location pass emits [Type(c)] once however many locations carry
    [c]; the whole output holds exactly one [Type(c)] fact when no object
    of the world is of category [c], and exactly two when some object
    is. *)
Theorem type_fact_per_location_category (w : World) (c : string) :
  c ∈ category w <$> locations w →
  (held_count w (objects w) ≤ 1 →
   ∃ facts, world_to_pddlstream_init w = Ok facts) ∧
  (∀ facts, world_to_pddlstream_init w = Ok facts →
     length (filter (λ f, f = fType c) facts)
     = if decide (c ∈ category w <$> objects w) then 2 else 1).
Proof.
  intros Hc. split; [apply world_to_pddlstream_init_returns|].
  intros facts Hf. rewrite (type_fact_count _ _ _ Hf).
  unfold loc_categories, obj_categories.
  rewrite decide_True by by apply elem_of_list_to_set.
  destruct (decide (c ∈ category w <$> objects w)) as [Hin|Hnin].
  - rewrite decide_True; [done|]. by apply elem_of_list_to_set.
  - rewrite decide_False; [done|]. by rewrite elem_of_list_to_set.
Qed.

Lemma type_fact_per_location_category_witness :
  (∃ facts, world_to_pddlstream_init (kitchen_world PNone) = Ok facts) ∧
  length (filter (λ f, f = fType "table") kitchen_facts) = 1.
Proof.
  destruct (type_fact_per_location_category (kitchen_world PNone) "table")
    as [Hret Hcount]; [compute_done|].
  split.
  - apply Hret. vm_compute. lia.
  - apply (Hcount kitchen_facts). vm_compute. reflexivity.
Defined.

(** ** Changing the manipulated-object reference *)

Lemma obj_facts_free w o :
  manipulated_object (robot w) ≠ PRef o →
  obj_facts w o =
  [("Obj", [PRef o]); ("Is", [PRef o; PStr (category w o)]);
   fAt (PRef o) (parent w o)].
Proof. intros Hne. unfold obj_facts. by rewrite decide_False. Qed.

Lemma obj_facts_held w o :
  manipulated_object (robot w) = PRef o →
  obj_facts w o =
  [("Obj", [PRef o]); ("Is", [PRef o; PStr (category w o)]);
   fHolding (robot_ref w) (PRef o)].
Proof. intros Heq. unfold obj_facts. by rewrite decide_True. Qed.

(** Objects other than the one referred to give the same facts whatever
    the reference. *)
Lemma obj_facts_other w v1 v2 objs :
  (∀ o, o ∈ objs → v1 ≠ PRef o ∧ v2 ≠ PRef o) →
  objs ≫= obj_facts (with_manipulated_object w v1)
  = objs ≫= obj_facts (with_manipulated_object w v2).
Proof.
  intros Hobjs. apply Forall_bind_ext, Forall_forall.
  intros o [H1 H2]%Hobjs. by rewrite !obj_facts_free.
Qed.

(** [C9], as the specification states it, fails: between the kitchen world
    with an empty hand and the same world with the robot holding the
    apple, the fact [At(apple, spawn)] is in the first output and not in
    the second, and it is neither [HandEmpty] nor [Holding]. *)
Lemma manipulated_object_toggle_counterexample :
  world_to_pddlstream_init (with_manipulated_object (kitchen_world PNone) PNone)
    = Ok kitchen_facts ∧
  world_to_pddlstream_init
    (with_manipulated_object (kitchen_world PNone) (PRef 4))
    = Ok kitchen_facts_holding ∧
  fAt (PRef 4) (PRef 3) ∈ kitchen_facts ∧
  (fAt (PRef 4) (PRef 3) ∉ kitchen_facts_holding) ∧
  hand_state_fact (PRef 0) (fAt (PRef 4) (PRef 3)) = false.
Proof. repeat split; compute_done. Qed.

(** [C9], amended: take two worlds that differ only in the robot's
    manipulated-object reference, unset in one and referring in the other
    to an object [O] that occurs once among the world's objects.  Both
    calls return, and the two outputs differ in exactly this: the second
    lacks [HandEmpty(robot)], and has [Holding(robot, O)] where the first
    has [At(O, parent(O))]; all other facts are the same, in the same
    order. *)
Theorem manipulated_object_toggle (w : World) (O : nat) (pre post : list nat) :
  objects w = pre ++ O :: post → O ∉ pre → O ∉ post →
  ∃ A B C : list fact,
    world_to_pddlstream_init (with_manipulated_object w PNone)
      = Ok (A ++ fHandEmpty (robot_ref w) :: B
              ++ fAt (PRef O) (parent w O) :: C) ∧
    world_to_pddlstream_init (with_manipulated_object w (PRef O))
      = Ok (A ++ B ++ fHolding (robot_ref w) (PRef O) :: C).
Proof.
  intros Hobjs Hpre Hpost.
  set (w0 := with_manipulated_object w PNone).
  set (wO := with_manipulated_object w (PRef O)).
  assert (Hc0 : held_count w0 (objects w0) = 0).
  { by apply held_count_absent. }
  assert (HcO : held_count wO (objects wO) = 1).
  { change (objects wO) with (objects w). rewrite Hobjs.
    unfold held_count. rewrite filter_app, filter_cons_True by done.
    rewrite !filter_none; [done| |];
      intros o Ho [= <-]; contradiction. }
  exists [("Robot", [robot_ref w])],
    ([fAt (robot_ref w) (init_loc w); ("Pose", [pose (robot w)]);
      ("AtPose", [robot_ref w; pose (robot w)])]
     ++ scene_facts w ++ (pre ≫= obj_facts w0)
     ++ [("Obj", [PRef O]); ("Is", [PRef O; PStr (category w O)])]),
    ((post ≫= obj_facts w0) ++ (fType <$> elements (obj_categories w))).
  split.
  - rewrite world_to_pddlstream_init_closed, Hc0. f_equal.
    change (objects w0) with (objects w). rewrite Hobjs.
    rewrite bind_app, bind_cons, (obj_facts_free w0 O) by done.
    change (scene_facts w0) with (scene_facts w).
    change (obj_categories w0) with (obj_categories w).
    unfold robot_facts, fHandEmpty, fAt. cbn [app].
    rewrite <- !app_assoc. reflexivity.
  - rewrite world_to_pddlstream_init_closed, HcO. f_equal.
    change (objects wO) with (objects w). rewrite Hobjs.
    rewrite bind_app, bind_cons, (obj_facts_held wO O) by done.
    change (scene_facts wO) with (scene_facts w).
    change (obj_categories wO) with (obj_categories w).
    unfold wO, w0.
    rewrite (obj_facts_other w (PRef O) PNone pre),
      (obj_facts_other w (PRef O) PNone post)
      by (intros o Ho; split; [intros [= <-]; contradiction|done]).
    unfold robot_facts_holding, fHolding, fAt. cbn [app].
    rewrite <- !app_assoc. reflexivity.
Qed.

Lemma manipulated_object_toggle_witness :
  ∃ A B C : list fact,
    world_to_pddlstream_init (with_manipulated_object (kitchen_world PNone) PNone)
      = Ok (A ++ fHandEmpty (PRef 0) :: B ++ fAt (PRef 4) (PRef 3) :: C) ∧
    world_to_pddlstream_init
      (with_manipulated_object (kitchen_world PNone) (PRef 4))
      = Ok (A ++ B ++ fHolding (PRef 0) (PRef 4) :: C).
Proof.
  apply (manipulated_object_toggle (kitchen_world PNone) 4 [] []).
  - reflexivity.
  - compute_done.
  - compute_done.
Defined.

(** * Properties of the decoder *)

Lemma index_Ok t i v : index t i = Ok v ↔ t !! i = Some v.
Proof. unfold index. destruct (t !! i); split; congruence. Qed.

Lemma index_in_range t i : i < length t → ∃ v, t !! i = Some v ∧ index t i = Ok v.
Proof.
  intros [v Hv]%lookup_lt_is_Some_2. exists v. split; [done|].
  by apply index_Ok.
Qed.

Lemma index_out_of_range t i : length t ≤ i → index t i = Raise IndexError.
Proof. intros Hi%lookup_ge_None_2. unfold index. by rewrite Hi. Qed.

(** The scan for a path touches the path field only, and leaves it at the
    last [Path] among the scanned arguments. *)
Lemma fold_path_step l act :
  let act' := fold_left path_step l act in
  Actions.type act' = Actions.type act ∧
  Actions.object act' = Actions.object act ∧
  Actions.source_location act' = Actions.source_location act ∧
  Actions.target_location act' = Actions.target_location act ∧
  Actions.pose act' = Actions.pose act ∧
  Actions.path act' =
    default (Actions.path act) (last (filter (λ v, isinstance_Path v) l)).
Proof.
  revert act. induction l as [|v l IH]; intros act; [done|].
  simpl. destruct (IH (path_step act v)) as (-> & -> & -> & -> & -> & ->).
  unfold path_step. rewrite filter_cons.
  destruct (isinstance_Path v) eqn:Hv; simpl; [|done].
  repeat split; try done.
  by destruct (filter (λ v, isinstance_Path v) l) as [|p ps] eqn:Hf
    using rev_ind; [|rewrite last_cons, last_snoc].
Qed.

Lemma last_filter_elem_of {A} (P : A → Prop) `{!∀ x, Decision (P x)}
    (l : list A) x :
  last (filter P l) = Some x → x ∈ l ∧ P x.
Proof.
  intros Hl. assert (Hx : x ∈ filter P l).
  { destruct (filter P l) as [|y ys] using rev_ind; [done|].
    rewrite last_snoc in Hl. injection Hl as ->.
    apply elem_of_app. right. left. }
  apply list_elem_of_filter in Hx. tauto.
Qed.

Lemma decode_action_unrecognized a :
  ¬ recognized (name a) → decode_action a = Ok (Actions.new (name a)).
Proof.
  intros Hn. unfold decode_action, recognized in *. simpl.
  rewrite decide_False by tauto. rewrite decide_False by tauto. done.
Qed.

Lemma decode_action_short a :
  short_action a → decode_action a = Raise IndexError.
Proof.
  intros [Hrec Hlen]. unfold decode_action. simpl.
  destruct (decide (name a = "navigate")) as [Hnav|Hnav].
  - destruct (index (args a) 1) as [src|e] eqn:H1.
    + rewrite bind_Ok. rewrite (index_out_of_range _ 2) by lia. done.
    + unfold index in H1. destruct (args a !! 1); [done|]. by inversion H1.
  - rewrite decide_True by (unfold recognized in Hrec; tauto).
    destruct (index (args a) 1) as [obj|e] eqn:H1.
    + rewrite bind_Ok. rewrite (index_out_of_range _ 2) by lia. done.
    + unfold index in H1. destruct (args a !! 1); [done|]. by inversion H1.
Qed.

Lemma decode_action_returns a :
  has_three_args a → ∃ t, decode_action a = Ok t.
Proof.
  intros Hwf. destruct (decide (recognized (name a))) as [Hrec|Hrec].
  - specialize (Hwf Hrec). unfold decode_action. simpl.
    destruct (index_in_range (args a) 1) as (v1 & _ & ->); [lia|].
    destruct (index_in_range (args a) 2) as (v2 & _ & ->); [lia|].
    destruct (decide (name a = "navigate")); [by eexists|].
    rewrite decide_True by (unfold recognized in Hrec; tauto).
    rewrite !bind_Ok. case_decide; [|by eexists].
    destruct (index_in_range (args a) 3) as (v3 & _ & ->); [lia|].
    by eexists.
  - rewrite decode_action_unrecognized by done. by eexists.
Qed.

Lemma decode_action_positional a t :
  decode_action a = Ok t → decoded_positionally a t.
Proof.
  unfold decode_action. simpl.
  destruct (decide (name a = "navigate")) as [Hnav|Hnav].
  - destruct (index (args a) 1) as [src|e] eqn:H1; [|done].
    destruct (index (args a) 2) as [tgt|e] eqn:H2; [|done].
    rewrite !bind_Ok. intros <-%Ok_inj.
    apply index_Ok in H1, H2.
    match goal with |- context [fold_left path_step ?l ?act] =>
      destruct (fold_path_step l act) as (Ht & _ & Hs & Hg & _ & Hp) end.
    split; [by rewrite Ht|]. split; [|intros [?|?]; congruence].
    intros _. rewrite Hs, Hg, Hp. simpl.
    split; [done|]. split; [done|].
    destruct (last (filter _ (drop 3 (args a)))) as [p|] eqn:Hl; simpl.
    + apply last_filter_elem_of in Hl as [Hin HP]. split; [done|].
      intros Hno. by destruct (Hno p).
    + apply last_None in Hl. split; [|done].
      intros (p & Hp1 & Hp2).
      exfalso. revert Hp1. eapply filter_nil_not_elem_of; [exact Hl|exact Hp2].
  - destruct (decide (name a = "pick" ∨ name a = "place")) as [Hpp|Hpp].
    + destruct (index (args a) 1) as [obj|e] eqn:H1; [|done].
      destruct (index (args a) 2) as [tgt|e] eqn:H2; [|done].
      rewrite !bind_Ok. apply index_Ok in H1, H2.
      destruct (decide (3 < length (args a))) as [Hlen|Hlen].
      * destruct (index (args a) 3) as [p|e] eqn:H3; [|done].
        rewrite bind_Ok. intros <-%Ok_inj. apply index_Ok in H3.
        split; [done|]. split; [done|]. intros _. simpl.
        repeat split; try done. lia.
      * intros <-%Ok_inj. split; [done|]. split; [done|]. intros _. simpl.
        repeat split; try done.
    + intros <-%Ok_inj. split; [done|]. split; [done|]. done.
Qed.

Lemma index_Raise t i e : index t i = Raise e → e = IndexError.
Proof. unfold index. destruct (t !! i); congruence. Qed.

Lemma decode_action_raises a e : decode_action a = Raise e → e = IndexError.
Proof.
  unfold decode_action. simpl.
  repeat first
    [ case_decide
    | match goal with
      | |- context [index ?t ?i] =>
          let H := fresh in
          destruct (index t i) eqn:H;
          [rewrite bind_Ok | apply index_Raise in H; subst; rewrite bind_Raise]
      end ];
    congruence.
Qed.

Lemma plan_step_Ok acts a t :
  decode_action a = Ok t → plan_step acts a = Ok (acts ++ [t]).
Proof. intros Ht. unfold plan_step. by rewrite Ht. Qed.

Lemma plan_step_Raise acts a e :
  decode_action a = Raise e → plan_step acts a = Raise e.
Proof. intros Ht. unfold plan_step. by rewrite Ht. Qed.

Lemma plan_loop_returns plan acc :
  Forall has_three_args plan →
  ∃ ts, for_each plan_step plan acc = Ok (acc ++ ts) ∧
        Forall2 (λ a t, decode_action a = Ok t) plan ts.
Proof.
  intros Hwf. revert acc. induction Hwf as [|a plan Ha _ IH]; intros acc.
  - exists []. by rewrite app_nil_r.
  - destruct (decode_action_returns a Ha) as [t Ht].
    destruct (IH (acc ++ [t])) as (ts & Hts & Hall).
    exists (t :: ts). split; [|by constructor].
    rewrite for_each_cons, (plan_step_Ok _ _ _ Ht), bind_Ok, Hts.
    by rewrite <- app_assoc.
Qed.

Lemma plan_loop_raises plan acc :
  Exists short_action plan →
  for_each plan_step plan acc = Raise IndexError.
Proof.
  revert acc. induction plan as [|a plan IH]; intros acc Hex.
  - by apply Exists_nil in Hex.
  - rewrite for_each_cons.
    destruct (decode_action a) as [t|e] eqn:Ha.
    + rewrite (plan_step_Ok _ _ _ Ha), bind_Ok. apply IH.
      apply Exists_cons in Hex as [Hshort|Hex]; [|done].
      apply decode_action_short in Hshort. congruence.
    + rewrite (plan_step_Raise _ _ _ Ha).
      by apply decode_action_raises in Ha as ->.
Qed.

Lemma solution_to_plan_nonempty {M} plan cost (m : M) :
  plan ≠ [] →
  pddlstream_solution_to_plan (Some plan, cost, m) =
  acts ← for_each plan_step plan [];
  Ok (Some {| Actions.actions := acts; Actions.total_cost := cost |}).
Proof.
  intros Hne. unfold pddlstream_solution_to_plan.
  rewrite decide_False; [done|]. by destruct plan.
Qed.

Lemma solution_to_plan_returns {M} plan cost (m : M) :
  plan ≠ [] → Forall has_three_args plan →
  ∃ ts, pddlstream_solution_to_plan (Some plan, cost, m) =
          Ok (Some {| Actions.actions := ts; Actions.total_cost := cost |}) ∧
        Forall2 (λ a t, decode_action a = Ok t) plan ts.
Proof.
  intros Hne Hwf. rewrite solution_to_plan_nonempty by done.
  destruct (plan_loop_returns plan [] Hwf) as (ts & Hts & Hall).
  exists ts. by rewrite Hts.
Qed.

Example decode_scenario_B :
  pddlstream_solution_to_plan (Some [navigate_action], 9 # 2, ())%Q =
  Ok (Some navigate_plan).
Proof. reflexivity. Qed.

Example decode_mixed :
  pddlstream_solution_to_plan
    (Some [navigate_action; detect_action; pick_action], 9 # 2, ())%Q =
  Ok (Some mixed_plan).
Proof. reflexivity. Qed.

Example decode_scenario_C :
  pddlstream_solution_to_plan (Some [pick_action], 1 # 1, ())%Q =
  Ok (Some {| Actions.actions :=
                [ {| Actions.type := "pick"; Actions.object := PRef 4;
                     Actions.source_location := PNone;
                     Actions.target_location := PRef 3;
                     Actions.pose := PNone; Actions.path := PNone |} ];
              Actions.total_cost := (1 # 1)%Q |}).
Proof. reflexivity. Qed.

Lemma plan_loop_inv plan acc acts :
  for_each plan_step plan acc = Ok acts →
  ∃ ts, acts = acc ++ ts ∧ Forall2 (λ a t, decode_action a = Ok t) plan ts.
Proof.
  revert acc. induction plan as [|a plan IH]; intros acc.
  - intros <-%Ok_inj. exists []. by rewrite app_nil_r.
  - rewrite for_each_cons. destruct (decode_action a) as [t|e] eqn:Ha.
    + rewrite (plan_step_Ok _ _ _ Ha), bind_Ok.
      intros (ts & -> & Hall)%IH. exists (t :: ts).
      split; [by rewrite <- app_assoc|by constructor].
    + by rewrite (plan_step_Raise _ _ _ Ha).
Qed.

Lemma solution_to_plan_inv {M} plan cost (m : M) r :
  plan ≠ [] →
  pddlstream_solution_to_plan (Some plan, cost, m) = Ok r →
  ∃ ts, r = Some {| Actions.actions := ts; Actions.total_cost := cost |} ∧
        Forall2 (λ a t, decode_action a = Ok t) plan ts.
Proof.
  intros Hne. rewrite solution_to_plan_nonempty by done.
  destruct (for_each plan_step plan []) as [acts|e] eqn:Hloop; [|done].
  rewrite bind_Ok. intros <-%Ok_inj.
  apply plan_loop_inv in Hloop as (ts & -> & Hall). by exists ts.
Qed.

(** [C3] The decoder returns the no-plan sentinel [None], neither an empty
    task plan nor an exception, when the solution's action sequence is
    absent and when it has zero length. *)
Theorem no_plan_sentinel {M : Type} (total_cost : Q) (m : M) :
  pddlstream_solution_to_plan (None, total_cost, m) = Ok None ∧
  pddlstream_solution_to_plan (Some [], total_cost, m) = Ok None.
Proof. split; reflexivity. Qed.

(** [C2] Every plan the decoder returns for a non-empty solution reads
    the planner's actions positionally: a navigate action takes its source
    from argument 2 and its target from argument 3, and its path from a
    remaining argument of type Path when there is one (unset otherwise); a
    pick or place action takes its object from argument 2, its target from
    argument 3, and its pose from argument 4 exactly when there is a fourth
    argument; the plan's total cost is the solution's, verbatim.  A plan
    is returned whenever the recognized actions carry their first three
    arguments. *)
Theorem decoder_positional {M : Type} (plan : list PDDLAction)
    (total_cost : Q) (m : M) :
  plan ≠ [] →
  (Forall has_three_args plan →
   ∃ plan_out,
     pddlstream_solution_to_plan (Some plan, total_cost, m)
     = Ok (Some plan_out)) ∧
  (∀ r, pddlstream_solution_to_plan (Some plan, total_cost, m) = Ok r →
     ∃ plan_out, r = Some plan_out ∧
       Actions.total_cost plan_out = total_cost ∧
       Forall2 decoded_positionally plan (Actions.actions plan_out)).
Proof.
  intros Hne. split.
  - intros Hwf.
    destruct (solution_to_plan_returns plan total_cost m Hne Hwf)
      as (ts & Hts & _). by eexists.
  - intros r (ts & -> & Hall)%solution_to_plan_inv; [|done].
    eexists. split; [done|]. split; [done|]. simpl.
    eapply Forall2_impl; [exact Hall|]. apply decode_action_positional.
Qed.

Lemma decoder_positional_witness :
  (∃ plan_out,
     pddlstream_solution_to_plan (Some [navigate_action], 9 # 2, ())%Q
     = Ok (Some plan_out)) ∧
  ∃ plan_out,
    Some navigate_plan = Some plan_out ∧
    Actions.total_cost plan_out = (9 # 2)%Q ∧
    Forall2 decoded_positionally [navigate_action] (Actions.actions plan_out).
Proof.
  destruct (decoder_positional [navigate_action] (9 # 2)%Q ())
    as [Hret Hpos]; [discriminate|].
  split.
  - apply Hret. constructor; [|constructor]. intros _. simpl. lia.
  - apply Hpos. reflexivity.
Defined.

(** [C8] Every plan the decoder returns for a non-empty solution has one
    task action per planner action, in the planner's order (the i-th task
    action is the decoding of the i-th planner action); an action
    whose tag is not navigate, pick or place is kept with only its name
    populated and every type-specific field unset.  Such an action,
    whatever its arguments, does not stop the decoding: a plan is returned
    whenever the recognized actions carry their first three arguments. *)
Theorem decoder_keeps_every_action {M : Type} (plan : list PDDLAction)
    (total_cost : Q) (m : M) :
  plan ≠ [] →
  (Forall has_three_args plan →
   ∃ plan_out,
     pddlstream_solution_to_plan (Some plan, total_cost, m)
     = Ok (Some plan_out)) ∧
  (∀ r, pddlstream_solution_to_plan (Some plan, total_cost, m) = Ok r →
     ∃ plan_out, r = Some plan_out ∧
       length (Actions.actions plan_out) = length plan ∧
       Forall2 (λ a t, decode_action a = Ok t) plan
         (Actions.actions plan_out) ∧
       Actions.type <$> Actions.actions plan_out = name <$> plan ∧
       (∀ i a, plan !! i = Some a → ¬ recognized (name a) →
          Actions.actions plan_out !! i = Some (Actions.new (name a)))).
Proof.
  intros Hne. split.
  - intros Hwf.
    destruct (solution_to_plan_returns plan total_cost m Hne Hwf)
      as (ts & Hts & _). by eexists.
  - intros r (ts & -> & Hall)%solution_to_plan_inv; [|done].
    eexists. split; [done|]. simpl. split; [|split; [done|split]].
    + symmetry. by eapply Forall2_length.
    + clear Hne. induction Hall as [|a t plan ts Hat _ IH]; [done|].
      rewrite !fmap_cons, IH.
      by destruct (decode_action_positional a t Hat) as [-> _].
    + intros i a Hi Hrec.
      destruct (Forall2_lookup_l _ _ _ _ _ Hall Hi) as (t & Ht & Hat).
      rewrite decode_action_unrecognized in Hat by done. congruence.
Qed.

Lemma decoder_keeps_every_action_witness :
  (∃ plan_out,
     pddlstream_solution_to_plan
       (Some [navigate_action; detect_action; pick_action], 9 # 2, ())%Q
     = Ok (Some plan_out)) ∧
  ∃ plan_out, Some mixed_plan = Some plan_out ∧
    length (Actions.actions plan_out) = 3 ∧
    Forall2 (λ a t, decode_action a = Ok t)
      [navigate_action; detect_action; pick_action]
      (Actions.actions plan_out) ∧
    Actions.type <$> Actions.actions plan_out = ["navigate"; "detect"; "pick"] ∧
    (∀ i a, [navigate_action; detect_action; pick_action] !! i = Some a →
       ¬ recognized (name a) →
       Actions.actions plan_out !! i = Some (Actions.new (name a))).
Proof.
  destruct (decoder_keeps_every_action
              [navigate_action; detect_action; pick_action] (9 # 2)%Q ())
    as [Hret Hkeep]; [discriminate|].
  split.
  - apply Hret. repeat constructor; intros Hrec; simpl; try lia.
    unfold recognized in Hrec. simpl in Hrec.
    destruct Hrec as [?|[?|?]]; discriminate.
  - apply Hkeep. reflexivity.
Defined.

(** [C10] The decoder reads positional arguments 2 and 3 of every action
    whose tag is navigate, pick or place without looking at the number of
    arguments: a solution with such an action of fewer than three
    arguments makes the decoding fail with an out-of-range indexing error
    and no plan is returned; the decoder returns a result when every
    recognized action has at least three positional arguments. *)
Theorem decoder_needs_three_args {M : Type} (plan : list PDDLAction)
    (total_cost : Q) (m : M) :
  (Exists short_action plan →
   pddlstream_solution_to_plan (Some plan, total_cost, m) = Raise IndexError) ∧
  (Forall has_three_args plan →
   ∃ r, pddlstream_solution_to_plan (Some plan, total_cost, m) = Ok r).
Proof.
  split.
  - intros Hex. rewrite solution_to_plan_nonempty.
    + by rewrite plan_loop_raises.
    + intros ->. by apply Exists_nil in Hex.
  - intros Hwf. destruct plan as [|a plan]; [by eexists|].
    destruct (solution_to_plan_returns (a :: plan) total_cost m)
      as (ts & Hts & _); [done|done|]. by eexists.
Qed.

Lemma decoder_needs_three_args_witness :
  pddlstream_solution_to_plan
    (Some [pick_action; short_navigate_action], 9 # 2, ())%Q
    = Raise IndexError ∧
  ∃ r, pddlstream_solution_to_plan
         (Some [pick_action; navigate_action], 9 # 2, ())%Q = Ok r.
Proof.
  split.
  - apply (decoder_needs_three_args
             [pick_action; short_navigate_action] (9 # 2)%Q ()).
    apply Exists_cons. right. apply Exists_cons. left.
    split; [left; reflexivity|simpl; lia].
  - apply (decoder_needs_three_args
             [pick_action; navigate_action] (9 # 2)%Q ()).
    repeat constructor; intros _; simpl; lia.
Defined.

(** * Further properties of the encoder *)

Lemma world_to_pddlstream_init_Ok_inv w facts :
  world_to_pddlstream_init w = Ok facts →
  held_count w (objects w) ≤ 1 ∧
  facts =
    (if decide (held_count w (objects w) = 0)
     then robot_facts w else robot_facts_holding w)
    ++ scene_facts w ++ (objects w ≫= obj_facts w)
    ++ (fType <$> elements (obj_categories w)).
Proof.
  rewrite world_to_pddlstream_init_closed.
  destruct (held_count w (objects w)) as [|[|n]]; [| |done];
    intros <-%Ok_inj; split; (lia || done).
Qed.

Lemma filter_bind {A B} (P : B → Prop) `{!∀ x, Decision (P x)}
    (f : A → list B) (l : list A) :
  filter P (l ≫= f) = l ≫= (λ x, filter P (f x)).
Proof.
  induction l as [|x l IH]; [done|].
  by rewrite !bind_cons, filter_app, IH.
Qed.

Lemma bind_singleton_fmap {A B} (h : A → B) (l : list A) :
  l ≫= (λ x, [h x]) = h <$> l.
Proof. induction l as [|x l IH]; [done|]. by rewrite bind_cons, fmap_cons, IH. Qed.

Lemma bind_nil_const {A B} (l : list A) : l ≫= (λ _, @nil B) = [].
Proof. induction l as [|x l IH]; [done|]. by rewrite bind_cons, IH. Qed.

Lemma facts_named_type_facts n (cats : list string) :
  facts_named n (fType <$> cats) = if decide (n = "Type") then fType <$> cats else [].
Proof.
  unfold facts_named. case_decide as Hn.
  - subst. induction cats as [|c cats IH]; [done|].
    rewrite fmap_cons, filter_cons_True by done. by rewrite IH.
  - by apply filter_name_type_facts.
Qed.

(** The facts under one predicate, part by part of the output. *)
Lemma facts_named_output w facts n :
  world_to_pddlstream_init w = Ok facts →
  facts_named n facts =
    facts_named n (if decide (held_count w (objects w) = 0)
                   then robot_facts w else robot_facts_holding w)
    ++ (rooms w ≫= λ r, facts_named n (room_facts r))
    ++ (locations w ≫= λ l,
          children w l ≫= λ s, facts_named n (spawn_facts w l s))
    ++ (if decide (n = "Type")
        then fType <$> elements (loc_categories w) else [])
    ++ (objects w ≫= λ o, facts_named n (obj_facts w o))
    ++ (if decide (n = "Type")
        then fType <$> elements (obj_categories w) else []).
Proof.
  intros [_ ->]%world_to_pddlstream_init_Ok_inv.
  unfold facts_named at 1, scene_facts.
  rewrite !filter_app, !filter_bind.
  fold (facts_named n (fType <$> elements (loc_categories w))).
  fold (facts_named n (fType <$> elements (obj_categories w))).
  rewrite !facts_named_type_facts, <- !app_assoc.
  do 2 f_equal. f_equal.
  apply Forall_bind_ext, Forall_forall. intros l _.
  unfold loc_facts. by rewrite filter_bind.
Qed.

(** [X2] One [Room] fact and one [Location] fact per entry of the world's
    rooms, in their order; the other [Location] facts are those of the
    spawns of the world's locations, location by location.  A location
    gets no [Location] fact of its own. *)
Theorem room_and_location_facts (w : World) (facts : list fact) :
  world_to_pddlstream_init w = Ok facts →
  facts_named "Room" facts = fRoom <$> rooms w ∧
  facts_named "Location" facts =
    (fLocation <$> rooms w)
    ++ (locations w ≫= λ l, fLocation <$> children w l).
Proof.
  intros Hf. rewrite !(facts_named_output _ _ _ Hf). split.
  - rewrite !(decide_False (P := _ = "Type")) by discriminate.
    replace (facts_named "Room" _) with (@nil fact) by by case_decide.
    change (rooms w ≫= _) with (rooms w ≫= λ r, [fRoom r]).
    change (locations w ≫= _) with
      (locations w ≫= λ l, children w l ≫= λ _, @nil fact).
    replace (objects w ≫= _) with (objects w ≫= λ _, @nil fact).
    + rewrite bind_singleton_fmap, !bind_nil_const, app_nil_r.
      replace (locations w ≫= _) with (@nil fact); [by rewrite app_nil_r|].
      symmetry. etrans; [|apply (bind_nil_const (locations w))].
      apply Forall_bind_ext, Forall_forall. intros l _. apply bind_nil_const.
    + apply Forall_bind_ext, Forall_forall. intros o _.
      unfold obj_facts, facts_named. by case_decide.
  - rewrite !(decide_False (P := _ = "Type")) by discriminate.
    replace (facts_named "Location" _) with (@nil fact) by by case_decide.
    change (rooms w ≫= _) with (rooms w ≫= λ r, [fLocation r]).
    change (locations w ≫= _) with
      (locations w ≫= λ l, children w l ≫= λ s, [fLocation s]).
    replace (objects w ≫= _) with (objects w ≫= λ _, @nil fact).
    + by rewrite bind_singleton_fmap, !bind_nil_const, !app_nil_r.
    + apply Forall_bind_ext, Forall_forall. intros o _.
      unfold obj_facts, facts_named. by case_decide.
Qed.

Lemma bind_pointwise {A B} (f g : A → list B) (l : list A) :
  (∀ x, f x = g x) → l ≫= f = l ≫= g.
Proof. intros Hfg. by apply list_bind_ext. Qed.

Lemma bind_filter_fmap {A B} (P : A → Prop) `{!∀ x, Decision (P x)}
    (h : A → B) (l : list A) :
  l ≫= (λ x, if decide (P x) then [h x] else []) = h <$> filter P l.
Proof.
  induction l as [|x l IH]; [done|].
  rewrite bind_cons, IH, filter_cons. by case_decide.
Qed.

Lemma facts_named_robot_part w n (l : list fact) :
  facts_named n (robot_facts w) = l →
  facts_named n (robot_facts_holding w) = l →
  facts_named n (if decide (held_count w (objects w) = 0)
                 then robot_facts w else robot_facts_holding w) = l.
Proof. by case_decide. Qed.

(** [X3] The [AtRoom] facts are one per spawn of each of the world's
    locations, in order, and relate the spawn to the parent of its
    location (the room), not to the location. *)
Theorem at_room_facts (w : World) (facts : list fact) :
  world_to_pddlstream_init w = Ok facts →
  facts_named "AtRoom" facts =
    locations w ≫= λ l, (λ s, fAtRoom s (parent w l)) <$> children w l.
Proof.
  intros Hf. rewrite (facts_named_output _ _ _ Hf).
  rewrite !(decide_False (P := _ = "Type")) by discriminate.
  rewrite (facts_named_robot_part w _ []) by done.
  rewrite (bind_pointwise _ (λ _, []) (rooms w)) by done.
  rewrite (bind_pointwise _ (λ _, []) (objects w))
    by (intros o; unfold obj_facts, facts_named; by case_decide).
  rewrite !bind_nil_const, !app_nil_r. simpl.
  apply bind_pointwise. intros l.
  by rewrite <- bind_singleton_fmap.
Qed.

(** [X4] There is one [Obj] fact per entry of the world's objects, in
    their order.  The [Is] facts give every spawn the category of its
    location and every object its own category: first the spawns, location
    by location, then the objects. *)
Theorem obj_and_is_facts (w : World) (facts : list fact) :
  world_to_pddlstream_init w = Ok facts →
  facts_named "Obj" facts = fObj <$> objects w ∧
  facts_named "Is" facts =
    (locations w ≫= λ l, (λ s, fIs s (category w l)) <$> children w l)
    ++ ((λ o, fIs o (category w o)) <$> objects w).
Proof.
  intros Hf. rewrite !(facts_named_output _ _ _ Hf).
  rewrite !(decide_False (P := _ = "Type")) by discriminate.
  split.
  - rewrite (facts_named_robot_part w _ []) by done.
    rewrite (bind_pointwise _ (λ _, []) (rooms w)) by done.
    rewrite (bind_pointwise _ (λ o, [fObj o]) (objects w))
      by (intros o; unfold obj_facts, facts_named; by case_decide).
    rewrite (bind_pointwise _ (λ _, []) (locations w))
      by (intros l; apply bind_nil_const).
    by rewrite !bind_nil_const, bind_singleton_fmap, !app_nil_r.
  - rewrite (facts_named_robot_part w _ []) by done.
    rewrite (bind_pointwise _ (λ _, []) (rooms w)) by done.
    rewrite (bind_pointwise _ (λ o, [fIs o (category w o)]) (objects w))
      by (intros o; unfold obj_facts, facts_named; by case_decide).
    by rewrite !bind_nil_const, bind_singleton_fmap, !app_nil_r.
Qed.

(** [X5] The [At] facts are the robot's, with its recorded location when
    that is set and with the result of the pose lookup otherwise, followed
    by one fact [At(o, parent(o))] for every entry [o] of the world's
    objects that is not the manipulated object, in order.  The
    manipulated object gets no [At] fact of its own. *)
Theorem at_facts (w : World) (facts : list fact) :
  world_to_pddlstream_init w = Ok facts →
  facts_named "At" facts =
    fAt (robot_ref w)
        (if truthy (location (robot w)) then location (robot w)
         else get_location_from_pose w (pose (robot w)))
    :: ((λ o, fAt (PRef o) (parent w o))
          <$> filter (λ o, manipulated_object (robot w) ≠ PRef o) (objects w)).
Proof.
  intros Hf. rewrite (facts_named_output _ _ _ Hf).
  rewrite !(decide_False (P := _ = "Type")) by discriminate.
  rewrite (facts_named_robot_part w _ [fAt (robot_ref w) (init_loc w)])
    by done.
  rewrite (bind_pointwise _ (λ _, []) (rooms w)) by done.
  rewrite (bind_pointwise _ (λ _, []) (locations w))
    by (intros l; apply bind_nil_const).
  rewrite (bind_pointwise _
             (λ o, if decide (manipulated_object (robot w) ≠ PRef o)
                   then [fAt (PRef o) (parent w o)] else []) (objects w))
    by (intros o; unfold obj_facts, facts_named; by repeat case_decide).
  by rewrite !bind_nil_const, bind_filter_fmap, !app_nil_r.
Qed.

Lemma facts_named_elem_of n (facts : list fact) f :
  f ∈ facts_named n facts ↔ f ∈ facts ∧ f.1 = n.
Proof. unfold facts_named. rewrite list_elem_of_filter. tauto. Qed.

Lemma held_count_zero w objs :
  held_count w objs = 0 ↔
  ∀ o, o ∈ objs → manipulated_object (robot w) ≠ PRef o.
Proof.
  split; [|apply held_count_absent].
  unfold held_count. intros Hlen%nil_length_inv o Ho Hm.
  by apply (filter_nil_not_elem_of _ _ o Hlen).
Qed.

Lemma facts_named_HandEmpty w facts :
  world_to_pddlstream_init w = Ok facts →
  facts_named "HandEmpty" facts =
    if decide (held_count w (objects w) = 0)
    then [fHandEmpty (robot_ref w)] else [].
Proof.
  intros Hf. rewrite (facts_named_output _ _ _ Hf).
  rewrite !(decide_False (P := _ = "Type")) by discriminate.
  rewrite (bind_pointwise _ (λ _, []) (rooms w)) by done.
  rewrite (bind_pointwise _ (λ _, []) (locations w))
    by (intros l; apply bind_nil_const).
  rewrite (bind_pointwise _ (λ _, []) (objects w))
    by (intros o; unfold obj_facts, facts_named; by case_decide).
  rewrite !bind_nil_const, !app_nil_r. by case_decide.
Qed.

Lemma facts_named_Holding w facts :
  world_to_pddlstream_init w = Ok facts →
  facts_named "Holding" facts =
    (λ o, fHolding (robot_ref w) (PRef o))
      <$> filter (λ o, manipulated_object (robot w) = PRef o) (objects w).
Proof.
  intros Hf. rewrite (facts_named_output _ _ _ Hf).
  rewrite !(decide_False (P := _ = "Type")) by discriminate.
  rewrite (facts_named_robot_part w _ []) by done.
  rewrite (bind_pointwise _ (λ _, []) (rooms w)) by done.
  rewrite (bind_pointwise _ (λ _, []) (locations w))
    by (intros l; apply bind_nil_const).
  rewrite (bind_pointwise _
             (λ o, if decide (manipulated_object (robot w) = PRef o)
                   then [fHolding (robot_ref w) (PRef o)] else []) (objects w))
    by (intros o; unfold obj_facts, facts_named; by repeat case_decide).
  by rewrite !bind_nil_const, bind_filter_fmap, !app_nil_r.
Qed.

(** [X1] The encoder raises exactly when the robot's manipulated object
    is listed at least twice among the world's objects: the second
    [remove] of [HandEmpty] finds nothing.  The exception is
    [ValueError]; nothing else is ever raised. *)
Theorem encoder_raises_iff_relisted (w : World) :
  (∀ e, world_to_pddlstream_init w = Raise e →
     e = ValueError ∧ 2 ≤ held_count w (objects w)) ∧
  (2 ≤ held_count w (objects w) →
   world_to_pddlstream_init w = Raise ValueError).
Proof.
  rewrite world_to_pddlstream_init_closed.
  destruct (held_count w (objects w)) as [|[|n]]; split; try done; try lia.
  intros e [= <-]. split; [done|lia].
Qed.

Lemma encoder_raises_iff_relisted_witness :
  world_to_pddlstream_init relisted_world = Raise ValueError ∧
  (ValueError = ValueError ∧ 2 ≤ held_count relisted_world [4; 4]).
Proof.
  destruct (encoder_raises_iff_relisted relisted_world) as [Hinv Hraise].
  assert (Hr : world_to_pddlstream_init relisted_world = Raise ValueError).
  { apply Hraise. vm_compute. lia. }
  split; [exact Hr|]. apply (Hinv ValueError Hr).
Defined.

(** [X6] In a returned list, [HandEmpty(robot)] is present exactly when
    the manipulated-object reference matches none of the world's objects
    (in particular when it is unset); every [Holding] fact is
    [Holding(robot, manipulated object)], and it is present exactly when
    the reference matches one of the world's objects. *)
Theorem hand_facts (w : World) (facts : list fact) :
  world_to_pddlstream_init w = Ok facts →
  (fHandEmpty (robot_ref w) ∈ facts ↔
   ∀ o, o ∈ objects w → manipulated_object (robot w) ≠ PRef o) ∧
  (∀ f, f ∈ facts → f.1 = "Holding" →
     f = fHolding (robot_ref w) (manipulated_object (robot w))) ∧
  (fHolding (robot_ref w) (manipulated_object (robot w)) ∈ facts ↔
   ∃ o, o ∈ objects w ∧ manipulated_object (robot w) = PRef o).
Proof.
  intros Hf.
  pose proof (facts_named_HandEmpty _ _ Hf) as Hhe.
  pose proof (facts_named_Holding _ _ Hf) as Hho.
  split; [|split].
  - rewrite <- held_count_zero.
    transitivity (fHandEmpty (robot_ref w) ∈ facts_named "HandEmpty" facts).
    { rewrite facts_named_elem_of. by split; [|intros [? _]]. }
    rewrite Hhe. case_decide; [|by rewrite elem_of_nil].
    by rewrite list_elem_of_singleton.
  - intros f Hin Hn.
    assert (Hin' : f ∈ facts_named "Holding" facts)
      by by apply facts_named_elem_of.
    rewrite Hho in Hin'.
    apply list_elem_of_fmap in Hin' as (o & -> & Ho).
    apply list_elem_of_filter in Ho as [-> _]. done.
  - transitivity
      (fHolding (robot_ref w) (manipulated_object (robot w))
         ∈ facts_named "Holding" facts).
    { rewrite facts_named_elem_of. by split; [|intros [? _]]. }
    rewrite Hho, list_elem_of_fmap. split.
    + intros (o & _ & Ho). apply list_elem_of_filter in Ho as [Hm Ho].
      by exists o.
    + intros (o & Ho & Hm). exists o. rewrite Hm. split; [done|].
      by apply list_elem_of_filter.
Qed.

Lemma hand_facts_witness :
  (fHandEmpty (PRef 0) ∈ kitchen_facts_holding ↔
   ∀ o, o ∈ [4] → PRef 4 ≠ PRef o) ∧
  (∀ f, f ∈ kitchen_facts_holding → f.1 = "Holding" →
     f = fHolding (PRef 0) (PRef 4)) ∧
  (fHolding (PRef 0) (PRef 4) ∈ kitchen_facts_holding ↔
   ∃ o, o ∈ [4] ∧ PRef 4 = PRef o).
Proof.
  apply (hand_facts (kitchen_world (PRef 4)) kitchen_facts_holding).
  vm_compute. reflexivity.
Defined.

Lemma room_and_location_facts_witness :
  facts_named "Room" kitchen_facts = fRoom <$> [1] ∧
  facts_named "Location" kitchen_facts =
    (fLocation <$> [1])
    ++ ([2] ≫= λ l, fLocation <$> children (kitchen_world PNone) l).
Proof.
  apply (room_and_location_facts (kitchen_world PNone) kitchen_facts).
  vm_compute. reflexivity.
Defined.

Lemma at_room_facts_witness :
  facts_named "AtRoom" kitchen_facts = [fAtRoom 3 (PRef 1)].
Proof.
  apply (at_room_facts (kitchen_world PNone) kitchen_facts).
  vm_compute. reflexivity.
Defined.

Lemma obj_and_is_facts_witness :
  facts_named "Obj" kitchen_facts = [fObj 4] ∧
  facts_named "Is" kitchen_facts = [fIs 3 "table"; fIs 4 "apple"].
Proof.
  apply (obj_and_is_facts (kitchen_world PNone) kitchen_facts).
  vm_compute. reflexivity.
Defined.

Lemma at_facts_witness :
  facts_named "At" kitchen_facts_holding = [fAt (PRef 0) (PRef 3)].
Proof.
  apply (at_facts (kitchen_world (PRef 4)) kitchen_facts_holding).
  vm_compute. reflexivity.
Defined.

(** [X7] For every category label [c], the returned list holds the fact
    [Type(c)] once if some location of the world is of category [c], once
    more if some object is, and not at all if neither is. *)
Theorem type_facts_count (w : World) (facts : list fact) (c : string) :
  world_to_pddlstream_init w = Ok facts →
  length (filter (λ f, f = fType c) facts)
  = (if decide (c ∈ category w <$> locations w) then 1 else 0)
    + (if decide (c ∈ category w <$> objects w) then 1 else 0).
Proof.
  intros Hf. rewrite (type_fact_count _ _ _ Hf).
  unfold loc_categories, obj_categories.
  f_equal; repeat case_decide; try done;
    rewrite elem_of_list_to_set in *; done.
Qed.

Lemma type_facts_count_witness :
  length (filter (λ f, f = fType "apple") kitchen_facts) = 0 + 1 ∧
  length (filter (λ f, f = fType "pear") kitchen_facts) = 0 + 0.
Proof.
  split.
  - apply (type_facts_count (kitchen_world PNone) kitchen_facts "apple").
    vm_compute. reflexivity.
  - apply (type_facts_count (kitchen_world PNone) kitchen_facts "pear").
    vm_compute. reflexivity.
Defined.

(** [X8] Every fact of a returned list is under one of the twelve
    predicates of the encoder and has that predicate's number of
    arguments: one for [Robot], [HandEmpty], [Pose], [Room], [Location],
    [Type] and [Obj], two for [At], [AtPose], [Is], [AtRoom] and
    [Holding]. *)
Theorem facts_in_vocabulary (w : World) (facts : list fact) :
  world_to_pddlstream_init w = Ok facts →
  ∀ f, f ∈ facts → (f.1, arity f) ∈ vocabulary.
Proof.
  intros [_ ->]%world_to_pddlstream_init_Ok_inv f.
  unfold scene_facts.
  rewrite !elem_of_app, !list_elem_of_bind, !list_elem_of_fmap.
  intros [Hf|[[(r & Hf & _)|[(l & Hf & _)|(c & -> & _)]]
             |[(o & Hf & _)|(c & -> & _)]]].
  - case_decide; apply list_elem_of_In in Hf; simpl in Hf;
      repeat (destruct Hf as [<-|Hf]; [name_in_list|]); done.
  - apply list_elem_of_In in Hf; simpl in Hf;
      repeat (destruct Hf as [<-|Hf]; [name_in_list|]); done.
  - unfold loc_facts in Hf. apply list_elem_of_bind in Hf as (s & Hf & _).
    apply list_elem_of_In in Hf; simpl in Hf;
      repeat (destruct Hf as [<-|Hf]; [name_in_list|]); done.
  - name_in_list.
  - unfold obj_facts in Hf. apply list_elem_of_In in Hf; simpl in Hf.
    destruct Hf as [<-|[<-|[<-|[]]]]; [name_in_list|name_in_list|].
    case_decide; name_in_list.
  - name_in_list.
Qed.

Lemma facts_in_vocabulary_witness :
  Forall (λ f : fact, (f.1, arity f) ∈ vocabulary) kitchen_facts_holding.
Proof.
  apply Forall_forall.
  apply (facts_in_vocabulary (kitchen_world (PRef 4))).
  vm_compute. reflexivity.
Defined.

(** * Further properties of the decoder *)

Lemma plan_loop_of_Forall2 plan ts acc :
  Forall2 (λ a t, decode_action a = Ok t) plan ts →
  for_each plan_step plan acc = Ok (acc ++ ts).
Proof.
  intros Hall. revert acc.
  induction Hall as [|a t plan ts Hat _ IH]; intros acc.
  - by rewrite app_nil_r.
  - rewrite for_each_cons, (plan_step_Ok _ _ _ Hat), bind_Ok, IH.
    by rewrite <- app_assoc.
Qed.

Lemma decode_action_last_path a t :
  decode_action a = Ok t → name a = "navigate" → Actions.path t = last_path a.
Proof.
  intros Hat Hnav. revert Hat. unfold decode_action. simpl.
  rewrite decide_True by done.
  destruct (index (args a) 1) as [src|e]; [|done].
  destruct (index (args a) 2) as [tgt|e]; [|done].
  rewrite !bind_Ok. intros <-%Ok_inj.
  match goal with |- context [fold_left path_step ?l ?act] =>
    destruct (fold_path_step l act) as (_ & _ & _ & _ & _ & ->) end.
  reflexivity.
Qed.

Lemma decode_action_other_fields a t :
  decode_action a = Ok t → other_fields_unset a t.
Proof.
  intros Hat. split; [|split].
  - intros Hnav. revert Hat. unfold decode_action. simpl.
    rewrite decide_True by done.
    destruct (index (args a) 1) as [src|e]; [|done].
    destruct (index (args a) 2) as [tgt|e]; [|done].
    rewrite !bind_Ok. intros <-%Ok_inj.
    match goal with |- context [fold_left path_step ?l ?act] =>
      destruct (fold_path_step l act) as (_ & -> & _ & _ & -> & _) end.
    done.
  - intros Hpp. revert Hat. unfold decode_action. simpl.
    rewrite decide_False by (intros Hnav; rewrite Hnav in Hpp;
                             destruct Hpp; discriminate).
    rewrite decide_True by done.
    destruct (index (args a) 1) as [obj|e]; [|done].
    destruct (index (args a) 2) as [tgt|e]; [|done].
    rewrite !bind_Ok. case_decide.
    + destruct (index (args a) 3) as [p|e]; [|done].
      rewrite bind_Ok. by intros <-%Ok_inj.
    + by intros <-%Ok_inj.
  - intros Hrec. rewrite decode_action_unrecognized in Hat by done.
    by apply Ok_inj in Hat.
Qed.

Lemma decode_action_same_but_first_arg a b :
  same_but_first_arg a b → decode_action a = decode_action b.
Proof.
  destruct a as [n [|x l]], b as [n' [|y l']]; intros [Hn Ht];
    simpl in Hn, Ht; subst; unfold decode_action, index; simpl;
    repeat case_decide; simpl in *; try reflexivity; lia.
Qed.

(** [X9] The decoder returns the no-plan sentinel only for an absent or
    empty action sequence: a solution with at least one action gives a
    task plan or an exception, never [None]. *)
Theorem no_plan_only_when_absent_or_empty {M : Type}
    (plan : option (list PDDLAction)) (total_cost : Q) (m : M) :
  pddlstream_solution_to_plan (plan, total_cost, m) = Ok None ↔
  plan = None ∨ plan = Some [].
Proof.
  split.
  - destruct plan as [[|a plan]|]; [by right| |by left].
    intros (ts & [=] & _)%solution_to_plan_inv. done.
  - by intros [->| ->].
Qed.

(** [X10] When a navigate action has several arguments of type Path after
    its third argument, the decoder keeps the last of them as the path
    (the scan does not stop at the first); arguments of other types
    between them do not matter. *)
Theorem navigate_takes_last_path {M : Type} (plan : list PDDLAction)
    (total_cost : Q) (m : M) (r : option TaskPlan) :
  plan ≠ [] →
  pddlstream_solution_to_plan (Some plan, total_cost, m) = Ok r →
  ∃ plan_out, r = Some plan_out ∧
    Forall2 (λ a t, name a = "navigate" → Actions.path t = last_path a)
      plan (Actions.actions plan_out).
Proof.
  intros Hne (ts & -> & Hall)%solution_to_plan_inv; [|done].
  eexists. split; [done|]. simpl.
  eapply Forall2_impl; [exact Hall|]. apply decode_action_last_path.
Qed.

Lemma navigate_takes_last_path_witness :
  ∃ plan_out, Some two_paths_plan = Some plan_out ∧
    Forall2 (λ a t, name a = "navigate" → Actions.path t = last_path a)
      [two_paths_action] (Actions.actions plan_out).
Proof.
  apply (navigate_takes_last_path [two_paths_action] (9 # 2)%Q ()).
  - discriminate.
  - reflexivity.
Defined.

(** [X11] The decoder writes only the fields of an action's own tag: a
    navigate action has no object and no pose, a pick or place action has
    no source location and no path (an argument of type Path is not
    looked for), and an action of another tag has nothing but its
    name. *)
Theorem decoder_leaves_other_fields {M : Type} (plan : list PDDLAction)
    (total_cost : Q) (m : M) (r : option TaskPlan) :
  plan ≠ [] →
  pddlstream_solution_to_plan (Some plan, total_cost, m) = Ok r →
  ∃ plan_out, r = Some plan_out ∧
    Forall2 other_fields_unset plan (Actions.actions plan_out).
Proof.
  intros Hne (ts & -> & Hall)%solution_to_plan_inv; [|done].
  eexists. split; [done|]. simpl.
  eapply Forall2_impl; [exact Hall|]. apply decode_action_other_fields.
Qed.

Lemma decoder_leaves_other_fields_witness :
  ∃ plan_out, Some mixed_plan = Some plan_out ∧
    Forall2 other_fields_unset
      [navigate_action; detect_action; pick_action]
      (Actions.actions plan_out).
Proof.
  apply (decoder_leaves_other_fields
           [navigate_action; detect_action; pick_action] (9 # 2)%Q ()).
  - discriminate.
  - reflexivity.
Defined.

(** [X12] Decoding is action by action: when two solutions decode to
    plans, the solution made of the first one's actions followed by the
    second one's decodes to the plan made of the first plan's actions
    followed by the second plan's, with the total cost it is given. *)
Theorem decoder_concat {M : Type} (plan1 plan2 : list PDDLAction)
    (cost1 cost2 total_cost : Q) (m1 m2 m : M) (out1 out2 : TaskPlan) :
  pddlstream_solution_to_plan (Some plan1, cost1, m1) = Ok (Some out1) →
  pddlstream_solution_to_plan (Some plan2, cost2, m2) = Ok (Some out2) →
  pddlstream_solution_to_plan (Some (plan1 ++ plan2), total_cost, m) =
  Ok (Some {| Actions.actions := Actions.actions out1 ++ Actions.actions out2;
              Actions.total_cost := total_cost |}).
Proof.
  intros H1 H2.
  assert (Hne1 : plan1 ≠ []) by (by intros ->).
  assert (Hne2 : plan2 ≠ []) by (by intros ->).
  apply solution_to_plan_inv in H1 as (ts1 & [= ->] & Hall1); [|done].
  apply solution_to_plan_inv in H2 as (ts2 & [= ->] & Hall2); [|done].
  rewrite solution_to_plan_nonempty by (by destruct plan1).
  rewrite (plan_loop_of_Forall2 _ (ts1 ++ ts2)) by by apply Forall2_app.
  reflexivity.
Qed.

Lemma decoder_concat_witness :
  pddlstream_solution_to_plan
    (Some ([navigate_action] ++ [pick_action]), 7 # 1, ())%Q =
  Ok (Some {| Actions.actions :=
                Actions.actions navigate_plan ++
                [ {| Actions.type := "pick"; Actions.object := PRef 4;
                     Actions.source_location := PNone;
                     Actions.target_location := PRef 3;
                     Actions.pose := PNone; Actions.path := PNone |} ];
              Actions.total_cost := (7 # 1)%Q |}).
Proof.
  apply (decoder_concat [navigate_action] [pick_action]
           (9 # 2)%Q (1 # 1)%Q (7 # 1)%Q () () () navigate_plan
           {| Actions.actions := _; Actions.total_cost := (1 # 1)%Q |});
    reflexivity.
Defined.

(** [X13] The decoder never reads the first positional argument of an
    action (the robot): two solutions whose actions have pairwise the same
    name and the same arguments after the first decode alike, to the same
    plan or to the same exception. *)
Theorem decoder_ignores_first_argument {M : Type}
    (plan1 plan2 : list PDDLAction) (total_cost : Q) (m : M) :
  Forall2 same_but_first_arg plan1 plan2 →
  pddlstream_solution_to_plan (Some plan1, total_cost, m) =
  pddlstream_solution_to_plan (Some plan2, total_cost, m).
Proof.
  intros Hall.
  assert (Hloop : ∀ acc,
    for_each plan_step plan1 acc = for_each plan_step plan2 acc).
  { induction Hall as [|a b plan1 plan2 Hab _ IH]; intros acc; [done|].
    rewrite !for_each_cons.
    assert (Hstep : plan_step acc a = plan_step acc b).
    { unfold plan_step.
      by rewrite (decode_action_same_but_first_arg a b Hab). }
    rewrite Hstep. destruct (plan_step acc b) as [acc'|e]; [|done].
    rewrite !bind_Ok. apply IH. }
  unfold pddlstream_solution_to_plan.
  rewrite (Forall2_length _ _ _ Hall), Hloop. reflexivity.
Qed.

Lemma decoder_ignores_first_argument_witness :
  pddlstream_solution_to_plan (Some [navigate_action], 9 # 2, ())%Q =
  pddlstream_solution_to_plan
    (Some [ {| name := "navigate";
               args := [PRef 77; PRef 3; PRef 5; PPath 1] |} ],
     9 # 2, ())%Q.
Proof.
  apply decoder_ignores_first_argument.
  constructor; [|constructor]. split; reflexivity.
Defined.

(** * Properties of add_coords *)

Section CoordsProperties.
Context {num : Type} (add : num → num → num).

Lemma add_coord_Ok x y c :
  2 ≤ length c →
  ∃ c0 c1, c !! 0 = Some c0 ∧ c !! 1 = Some c1 ∧
    add_coord add x y c = Ok (add c0 x, add c1 y).
Proof.
  destruct c as [|c0 [|c1 c]]; simpl; [lia|lia|]. intros _.
  by exists c0, c1.
Qed.

Lemma add_coord_short x y c :
  length c < 2 → add_coord add x y c = Raise IndexError.
Proof. destruct c as [|c0 [|c1 c]]; simpl; [done|done|lia]. Qed.

Lemma add_coord_raises x y c e :
  add_coord add x y c = Raise e → e = IndexError.
Proof. destruct c as [|c0 [|c1 c]]; cbv; congruence. Qed.

Lemma comprehension_add_coord_Ok x y coords :
  Forall (λ c, 2 ≤ length c) coords →
  ∃ out, comprehension (add_coord add x y) coords = Ok out ∧
    Forall2 (λ c p, add_coord add x y c = Ok p) coords out.
Proof.
  induction 1 as [|c coords Hc _ (out & Hout & Hall)].
  - by exists [].
  - destruct (add_coord_Ok x y c Hc) as (c0 & c1 & _ & _ & Hp).
    exists ((add c0 x, add c1 y) :: out). split; [|by constructor].
    simpl. by rewrite Hp, bind_Ok, Hout.
Qed.

Lemma comprehension_add_coord_raises x y coords :
  Exists (λ c, length c < 2) coords →
  comprehension (add_coord add x y) coords = Raise IndexError.
Proof.
  induction coords as [|c coords IH]; intros Hex.
  - by apply Exists_nil in Hex.
  - simpl. destruct (add_coord add x y c) as [p|e] eqn:Hp.
    + rewrite bind_Ok.
      apply Exists_cons in Hex as [Hc|Hex].
      * apply (add_coord_short x y) in Hc. congruence.
      * by rewrite IH.
    + by apply add_coord_raises in Hp as ->.
Qed.

(** [X14] [add_coords] first unpacks the offset: an offset that does not
    have exactly two components raises [ValueError], whatever the
    coordinates.  Then a coordinate with fewer than two components raises
    [IndexError].  Otherwise it returns one pair per coordinate, in order:
    the first two components of the coordinate, each shifted by the
    offset's; further components of a coordinate are dropped. *)
Theorem add_coords_returns (coords : list (list num)) (offset : list num) :
  (length offset ≠ 2 → add_coords add coords offset = Raise ValueError) ∧
  (length offset = 2 → Exists (λ c, length c < 2) coords →
   add_coords add coords offset = Raise IndexError) ∧
  (∀ x y, offset = [x; y] → Forall (λ c, 2 ≤ length c) coords →
   ∃ out, add_coords add coords offset = Ok out ∧
     length out = length coords ∧
     ∀ i c, coords !! i = Some c →
       ∃ c0 c1, c !! 0 = Some c0 ∧ c !! 1 = Some c1 ∧
         out !! i = Some (add c0 x, add c1 y)).
Proof.
  split; [|split].
  - by destruct offset as [|x [|y [|z offset]]].
  - destruct offset as [|x [|y [|z offset]]]; simpl; try done.
    intros _. apply comprehension_add_coord_raises.
  - intros x y -> Hall.
    destruct (comprehension_add_coord_Ok x y coords Hall) as (out & Ho & H2).
    exists out. split; [exact Ho|]. split.
    + symmetry. by eapply Forall2_length.
    + intros i c Hi.
      destruct (Forall2_lookup_l _ _ _ _ _ H2 Hi) as (p & Hp & Hcp).
      destruct (add_coord_Ok x y c) as (c0 & c1 & H0 & H1 & Hc).
      { eapply Forall_lookup_1 in Hall; [|exact Hi]. done. }
      exists c0, c1. repeat split; try done. congruence.
Qed.
End CoordsProperties.

Lemma add_coords_returns_witness :
  add_coords Z.add [[1; 2]%Z] [5%Z] = Raise ValueError ∧
  add_coords Z.add [[1; 2]; [3]]%Z [10; 20]%Z = Raise IndexError ∧
  ∃ out, add_coords Z.add [[1; 2]; [3; 4; 5]]%Z [10; 20]%Z = Ok out ∧
    length out = 2 ∧
    ∀ i c, [[1; 2]; [3; 4; 5]]%Z !! i = Some c →
      ∃ c0 c1, c !! 0 = Some c0 ∧ c !! 1 = Some c1 ∧
        out !! i = Some (c0 + 10, c1 + 20)%Z.
Proof.
  split; [|split].
  - apply (add_coords_returns Z.add [[1; 2]%Z] [5%Z]). simpl. lia.
  - apply (add_coords_returns Z.add [[1; 2]; [3]]%Z [10; 20]%Z).
    + reflexivity.
    + apply Exists_cons. right. apply Exists_cons. left. simpl. lia.
  - apply (proj2 (proj2
      (add_coords_returns Z.add [[1; 2]; [3; 4; 5]]%Z [10; 20]%Z)) 10%Z 20%Z).
    + reflexivity.
    + repeat constructor; simpl; lia.
Defined.
